(** * Codebase Genius: structural extraction and diagram synthesis

    A shallow embedding of [utils.py]: the tree-sitter based Python analyser
    ([get_node_text], [get_docstring], [analyze_python_code] and the query
    table [py_queries]), the Mermaid graph builder ([create_mermaid_chart]),
    the Jac analyser ([analyze_jac_code]) and [save_markdown].

    Reading of the source text.  In [utils.py] the subscripts and empty-list
    literals are missing from a few lines ([results = {"functions":, ...}],
    [body_node.children.type], [split('{').strip()]).  The embedding reads
    every [results] key as starting from the empty list (the later
    [.append] calls need it) and [body_node.children] followed by an
    attribute as the list's first element, guarded by the [child_count > 0]
    test written just before it.

    External libraries.  tree-sitter, networkx and networkx-mermaid are not
    part of the repository.  A parse tree is data here ([Tree]); a parser is
    a function [string -> Tree] taken as an argument; the four queries are
    evaluated by a small matcher over the patterns of [py_queries]; the
    directed graph follows networkx's [add_node], [has_node] and [add_edge];
    the diagram builder is an argument that returns text or raises. *)

From Stdlib Require Import String Ascii List Arith Lia.
From stdpp Require Import base option list strings gmap.
Import ListNotations.
Local Open Scope string_scope.
Local Open Scope list_scope.

(** ** Exceptions and the error monad *)

(** The Python exceptions that the modelled code can raise. *)
Inductive exn : Type :=
| KeyError (key : string)
| IndexError
| AttributeError (attr : string)
| BackendError (msg : string).

(** A computation either raises ([inl]) or returns ([inr]). *)
Definition result (A : Type) : Type := exn + A.

Definition ret {A} (a : A) : result A := inr a.
Definition raise {A} (e : exn) : result A := inl e.
Definition bind {A B} (m : result A) (k : A -> result B) : result B :=
  match m with
  | inl e => inl e
  | inr a => k a
  end.

Notation "'do' x <- m ; k" := (bind m (fun x => k))
  (at level 10, x name, m at level 100, k at level 200).

(** A [for] loop whose body may raise: the first exception ends the loop. *)
Fixpoint for_each {A S} (body : S -> A -> result S) (xs : list A) (s : S)
  : result S :=
  match xs with
  | [] => ret s
  | x :: xs' => do s' <- body s x; for_each body xs' s'
  end.

(** ** Syntax trees and node handles *)

Record Point := mkPoint { row : nat; column : nat }.

(** What the parser builds: a node has a grammar type, the field name it
    carries in its parent (if any), its byte span, its start and end points
    and its children. *)
#[local] Unset Elimination Schemes.
Inductive Tree : Type :=
| TS (ty : string) (fld : option string) (sb eb : nat) (sp ep : Point)
     (cs : list Tree).
#[local] Set Elimination Schemes.

Definition t_type (t : Tree) : string := let 'TS ty _ _ _ _ _ _ := t in ty.
Definition t_field (t : Tree) : option string := let 'TS _ f _ _ _ _ _ := t in f.
Definition t_start_byte (t : Tree) : nat := let 'TS _ _ sb _ _ _ _ := t in sb.
Definition t_end_byte (t : Tree) : nat := let 'TS _ _ _ eb _ _ _ := t in eb.
Definition t_start_point (t : Tree) : Point := let 'TS _ _ _ _ sp _ _ := t in sp.
Definition t_end_point (t : Tree) : Point := let 'TS _ _ _ _ _ ep _ := t in ep.
Definition t_children (t : Tree) : list Tree := let 'TS _ _ _ _ _ _ cs := t in cs.

(** Python's [Node] object: the subtree together with the way up, each step
    recording the index taken in the parent and the parent itself (nearest
    first).  [node.id] is the list of indices, which names the node within
    its tree; [parent] pops one step.

    [parent] is the node a handle was taken from.  That is what
    [node.parent] answers for a node of non-zero width.  For a zero-width
    node (an empty block or a missing token left by error recovery) the
    tree-sitter releases this code runs on find the parent by byte position
    and may answer with a neighbouring node instead; such nodes are outside
    what [parent] describes, and the statements about whole analyses
    exclude them by hypothesis ([captures_have_width], [has_width]). *)
Record Node := mkNode { node_tree : Tree; node_up : list (nat * Tree) }.

Definition node_id (n : Node) : list nat := map fst (node_up n).
Definition type (n : Node) : string := t_type (node_tree n).
Definition field_name (n : Node) : option string := t_field (node_tree n).
Definition start_byte (n : Node) : nat := t_start_byte (node_tree n).
Definition end_byte (n : Node) : nat := t_end_byte (node_tree n).
Definition start_point (n : Node) : Point := t_start_point (node_tree n).
Definition end_point (n : Node) : Point := t_end_point (node_tree n).

Definition parent (n : Node) : option Node :=
  match node_up n with
  | [] => None
  | (_, p) :: up => Some (mkNode p up)
  end.

Fixpoint children_from (p : Tree) (up : list (nat * Tree)) (i : nat)
  (cs : list Tree) : list Node :=
  match cs with
  | [] => []
  | c :: cs' => mkNode c ((i, p) :: up) :: children_from p up (S i) cs'
  end.

Definition children (n : Node) : list Node :=
  children_from (node_tree n) (node_up n) 0 (t_children (node_tree n)).

Definition child_count (n : Node) : nat := length (children n).

Definition child_by_field_name (n : Node) (name : string) : option Node :=
  find (fun c => bool_decide (field_name c = Some name)) (children n).

Definition root_node (t : Tree) : Node := mkNode t [].

(** All nodes of the subtree at a handle, in document (pre-)order. *)
Fixpoint walk (t : Tree) (up : list (nat * Tree)) : list Node :=
  mkNode t up ::
  match t with
  | TS _ _ _ _ _ _ cs =>
      (fix go (i : nat) (l : list Tree) : list Node :=
         match l with
         | [] => []
         | c :: l' => walk c ((i, t) :: up) ++ go (S i) l'
         end) 0 cs
  end.

Definition descendants (n : Node) : list Node := walk (node_tree n) (node_up n).

(** The same traversal, written over the children handles. *)
Fixpoint walk_children (p : Tree) (up : list (nat * Tree)) (i : nat)
  (cs : list Tree) : list Node :=
  match cs with
  | [] => []
  | c :: cs' => walk c ((i, p) :: up) ++ walk_children p up (S i) cs'
  end.

(** ** Grammar queries ([py_queries]) *)

(** A query of the shape used in [py_queries]: a node type, required field
    children given as (field, child type, capture name), and the capture
    name of the whole match. *)
Record Query := mkQuery {
  q_type : string;
  q_fields : list (string * string * string);
  q_capture : string
}.

Definition functions_query : Query :=
  mkQuery "function_definition"
    [("name", "identifier", "name");
     ("parameters", "parameters", "params");
     ("body", "block", "body")]
    "function.definition".

Definition classes_query : Query :=
  mkQuery "class_definition"
    [("name", "identifier", "name");
     ("body", "block", "body")]
    "class.definition".

Definition calls_query : Query :=
  mkQuery "call" [("function", "identifier", "name")] "call".

Definition imports_from_query : Query :=
  mkQuery "import_from_statement"
    [("module_name", "dotted_name", "module");
     ("name", "dotted_name", "import")]
    "import_from".

Definition imports_query : Query :=
  mkQuery "import_statement" [("name", "dotted_name", "module")] "import".

(** The dict [py_queries], by key. *)
Definition py_queries (key : string) : option Query :=
  if bool_decide (key = "functions") then Some functions_query
  else if bool_decide (key = "classes") then Some classes_query
  else if bool_decide (key = "calls") then Some calls_query
  else if bool_decide (key = "imports_from") then Some imports_from_query
  else if bool_decide (key = "imports") then Some imports_query
  else None.

(** The child of [n] that sits in field [f] and has type [ty]. *)
Definition field_child (n : Node) (f ty : string) : option Node :=
  find (fun c => bool_decide (field_name c = Some f) && bool_decide (type c = ty))
       (children n).

Fixpoint match_fields (n : Node) (fs : list (string * string * string))
  : option (list (Node * string)) :=
  match fs with
  | [] => Some []
  | (f, ty, cap) :: fs' =>
      match field_child n f ty, match_fields n fs' with
      | Some c, Some rest => Some ((c, cap) :: rest)
      | _, _ => None
      end
  end.

(** The captures one node contributes: the match itself, then its field
    captures in document order; nothing when the pattern does not match. *)
Definition match_at (q : Query) (n : Node) : list (Node * string) :=
  if bool_decide (type n = q_type q) then
    match match_fields n (q_fields q) with
    | Some caps => (n, q_capture q) :: caps
    | None => []
    end
  else [].

(** [query.captures(root_node)]: the captures of every match, outermost and
    earliest first. *)
Definition captures (q : Query) (root : Node) : list (Node * string) :=
  flat_map (match_at q) (descendants root).

(** ** Text helpers *)

(** [content_bytes[node.start_byte:node.end_byte].decode('utf8')].  A text
    is kept as its UTF-8 byte string, so the decoding step is not modelled:
    equal texts are equal byte strings, but a length or an offset counted
    here is counted in bytes, and the [UnicodeDecodeError] of a span that
    cuts a character has no counterpart.  Lengths and offsets agree with
    Python's on ASCII content. *)
Definition get_node_text (node : Node) (content_bytes : string) : string :=
  substring (start_byte node) (end_byte node - start_byte node) content_bytes.

(** [l[0]] on a Python list. *)
Definition first_item {A} (l : list A) : result A :=
  match l with
  | [] => raise IndexError
  | x :: _ => ret x
  end.

Definition get_docstring (body_node : Node) (content_bytes : string)
  : result string :=
  if (0 <? child_count body_node)%nat then
    do c0 <- first_item (children body_node);
    if bool_decide (type c0 = "expression_statement") then
      do c00 <- first_item (children c0);
      if bool_decide (type c00 = "string") then
        ret (get_node_text c00 content_bytes)
      else ret ""
    else ret ""
  else ret "".

(** ** Insertion-ordered dictionaries

    [func_nodes] and [class_nodes] are Python dicts whose [values()] are
    read back in insertion order, so they are kept as association lists
    with at most one binding per key. *)
Section odict.
Context {K V : Type} `{EqDecision K}.

Definition odict_mem (k : K) (d : list (K * V)) : bool :=
  existsb (fun kv => bool_decide (kv.1 = k)) d.

(** [d[k] = v]: an existing key keeps its place, a new one goes last. *)
Fixpoint odict_set (k : K) (v : V) (d : list (K * V)) : list (K * V) :=
  match d with
  | [] => [(k, v)]
  | (k', v') :: d' =>
      if bool_decide (k' = k) then (k, v) :: d' else (k', v') :: odict_set k v d'
  end.

(** [d[k][...] = ...]: the value bound to [k] is updated in place. *)
Fixpoint odict_update (k : K) (f : V -> V) (d : list (K * V)) : list (K * V) :=
  match d with
  | [] => []
  | (k', v') :: d' =>
      if bool_decide (k' = k) then (k', f v') :: d' else (k', v') :: odict_update k f d'
  end.

Definition odict_values (d : list (K * V)) : list V := map snd d.
End odict.

(** ** The analysis result *)

Record FunctionEntry := mkFunctionEntry {
  fn_name : string;
  fn_signature : string;
  fn_docstring : string;
  fn_code_body : string;
  fn_start_line : Point;
  fn_end_line : Point
}.

Record ClassEntry := mkClassEntry {
  cl_name : string;
  cl_docstring : string;
  cl_code_body : string;
  cl_start_line : Point;
  cl_end_line : Point
}.

Record CallEntry := mkCallEntry {
  call_name : string;
  line_number : Point;
  owner_function : option string
}.

(** The import queries exist in [py_queries] but [analyze_python_code] never
    runs them; the record only fixes the element type of the list. *)
Record ImportEntry := mkImportEntry {
  im_module : string;
  im_import : option string
}.

Record Results := mkResults {
  functions : list FunctionEntry;
  classes : list ClassEntry;
  calls : list CallEntry;
  imports : list ImportEntry
}.

Definition empty_results : Results := mkResults [] [] [] [].

(** ** [analyze_python_code] *)

(** [data[key]] on the per-definition dict of captured nodes. *)
Definition getitem (data : gmap string Node) (key : string) : result Node :=
  match data !! key with
  | Some n => ret n
  | None => raise (KeyError key)
  end.

(** [py_queries[key]]. *)
Definition query_of (key : string) : result Query :=
  match py_queries key with
  | Some q => ret q
  | None => raise (KeyError key)
  end.

(** Body of the first loop over the function (or class) captures: the
    definition capture opens an entry keyed by [node.id]; a field capture is
    filed under its parent's entry when there is one.  The function loop
    and the class loop differ only in the capture names. *)
Definition collect (def_capture : string) (keys : list string)
  (nodes : list (list nat * gmap string Node)) (cap : Node * string)
  : result (list (list nat * gmap string Node)) :=
  let '(node, name) := cap in
  if bool_decide (name = def_capture) then
    ret (odict_set (node_id node) {[ "def_node" := node ]} nodes)
  else if bool_decide (name ∈ keys) then
    match parent node with
    | None => raise (AttributeError "id")
    | Some p =>
        if odict_mem (node_id p) nodes then
          ret (odict_update (node_id p) (fun data => <[ name := node ]> data) nodes)
        else ret nodes
    end
  else ret nodes.

(** One appended function record; the dict literal is evaluated key by key,
    so a missing capture or a failing docstring lookup raises. *)
Definition function_entry (content_bytes : string) (data : gmap string Node)
  : result FunctionEntry :=
  do nm <- getitem data "name";
  do nm' <- getitem data "name";
  do ps <- getitem data "params";
  do bd <- getitem data "body";
  do doc <- get_docstring bd content_bytes;
  do dn <- getitem data "def_node";
  ret (mkFunctionEntry
         (get_node_text nm content_bytes)
         ("def " ++ get_node_text nm' content_bytes ++ get_node_text ps content_bytes)%string
         doc
         (get_node_text dn content_bytes)
         (start_point dn)
         (end_point dn)).

Definition class_entry (content_bytes : string) (data : gmap string Node)
  : result ClassEntry :=
  do nm <- getitem data "name";
  do bd <- getitem data "body";
  do doc <- get_docstring bd content_bytes;
  do dn <- getitem data "def_node";
  ret (mkClassEntry
         (get_node_text nm content_bytes)
         doc
         (get_node_text dn content_bytes)
         (start_point dn)
         (end_point dn)).

(** Body of the second loop: [if "name" not in data: continue], else append. *)
Definition append_entry {E} (entry : gmap string Node -> result E)
  (acc : list E) (data : gmap string Node) : result (list E) :=
  match data !! "name" with
  | None => ret acc
  | Some _ => do e <- entry data; ret (acc ++ [e])
  end.

Definition is_definition (t : Tree) : bool :=
  bool_decide (t_type t ∈ ["function_definition"; "class_definition"]).

(** The [while] loop of the call capture: starting from [node.parent], climb
    until a function or class definition, or until there is no parent. *)
Fixpoint climb (up : list (nat * Tree)) : option Node :=
  match up with
  | [] => None
  | (_, p) :: up' => if is_definition p then Some (mkNode p up') else climb up'
  end.

Definition parent_func (node : Node) : option Node := climb (node_up node).

Definition owner_name (content_bytes : string) (node : Node) : option string :=
  match parent_func node with
  | Some pf =>
      match child_by_field_name pf "name" with
      | Some owner_node => Some (get_node_text owner_node content_bytes)
      | None => None
      end
  | None => None
  end.

Definition call_entry (content_bytes : string) (node : Node) : CallEntry :=
  mkCallEntry (get_node_text node content_bytes)
              (start_point node)
              (owner_name content_bytes node).

(** Body of the loop over the call captures: only [@name] captures count. *)
Definition append_call (content_bytes : string) (acc : list CallEntry)
  (cap : Node * string) : list CallEntry :=
  let '(node, name) := cap in
  if bool_decide (name = "name") then acc ++ [call_entry content_bytes node]
  else acc.

Definition extract_functions (content_bytes : string) (root : Node)
  : result (list FunctionEntry) :=
  do q <- query_of "functions";
  do func_nodes <- for_each (collect "function.definition" ["name"; "params"; "body"])
                            (captures q root) [];
  for_each (append_entry (function_entry content_bytes)) (odict_values func_nodes) [].

Definition extract_classes (content_bytes : string) (root : Node)
  : result (list ClassEntry) :=
  do q <- query_of "classes";
  do class_nodes <- for_each (collect "class.definition" ["name"; "body"])
                             (captures q root) [];
  for_each (append_entry (class_entry content_bytes)) (odict_values class_nodes) [].

Definition extract_calls (content_bytes : string) (root : Node)
  : result (list CallEntry) :=
  do q <- query_of "calls";
  ret (fold_left (append_call content_bytes) (captures q root) []).

(** [parse] stands for [py_parser.parse(...).root_node].  [file_content] is
    the input already encoded, [bytes(file_content, "utf8")]: a text that
    cannot be encoded (a lone surrogate) makes the source raise
    [UnicodeEncodeError] before anything is parsed and is not an input of
    this function. *)
Definition analyze_python_code (parse : string -> Tree) (file_content : string)
  : result Results :=
  let content_bytes := file_content in
  let root := root_node (parse content_bytes) in
  do fs <- extract_functions content_bytes root;
  do cs <- extract_classes content_bytes root;
  do ks <- extract_calls content_bytes root;
  ret (mkResults fs cs ks []).

(** ** Vocabulary of the statements

    Definitions used to state what the analyser computes: the captures of
    each pattern at a node, the record built from them, and the tree shape
    under which [get_docstring] cannot raise. *)

(** Induction over a tree with the hypothesis available for every child. *)
Fixpoint Tree_ind' (P : Tree -> Prop)
  (H : forall ty f sb eb sp ep cs, Forall P cs -> P (TS ty f sb eb sp ep cs))
  (t : Tree) : P t :=
  match t with
  | TS ty f sb eb sp ep cs =>
      H ty f sb eb sp ep cs
        ((fix go (l : list Tree) : Forall P l :=
            match l with
            | [] => @List.Forall_nil Tree P
            | c :: l' => @List.Forall_cons Tree P c l' (Tree_ind' P H c) (go l')
            end) cs)
  end.

(** The dict a definition's entry ends up holding: [def_node] plus one key
    per field capture. *)
Definition group_data (n : Node) (caps : list (Node * string)) : gmap string Node :=
  fold_left (fun data cap => <[ cap.2 := cap.1 ]> data) caps {[ "def_node" := n ]}.

(** The entry a node opens in [func_nodes] / [class_nodes], if it matches. *)
Definition opened (q : Query) (n : Node) : option (list nat * gmap string Node) :=
  if bool_decide (type n = q_type q) then
    match match_fields n (q_fields q) with
    | Some caps => Some (node_id n, group_data n caps)
    | None => None
    end
  else None.

(** The value [get_docstring] returns when it returns. *)
Definition docstring_of (body_node : Node) (content_bytes : string) : string :=
  match children body_node with
  | c0 :: _ =>
      if bool_decide (type c0 = "expression_statement") then
        match children c0 with
        | c00 :: _ =>
            if bool_decide (type c00 = "string")
            then get_node_text c00 content_bytes else ""
        | [] => ""
        end
      else ""
  | [] => ""
  end.

(** Shape of a tree the grammar can produce: an [expression_statement] is
    never childless.  [get_docstring] indexes into it without a test. *)
Definition statement_ok (n : Node) : bool :=
  negb (bool_decide (type n = "expression_statement")) || (0 <? child_count n)%nat.

Definition well_shaped (root : Node) : bool :=
  forallb statement_ok (descendants root).

(** What the extraction loops need of the tree: the statements at the head
    of a body are not childless. *)
Definition bodies_ok (root : Node) : Prop :=
  forall n c c0, n ∈ descendants root -> c ∈ children n -> c0 ∈ children c ->
                 statement_ok c0 = true.

Definition function_record (content_bytes : string) (n nm ps bd : Node)
  : FunctionEntry :=
  mkFunctionEntry
    (get_node_text nm content_bytes)
    ("def " ++ get_node_text nm content_bytes ++ get_node_text ps content_bytes)%string
    (docstring_of bd content_bytes)
    (get_node_text n content_bytes)
    (start_point n)
    (end_point n).

(** The captures of the [functions] pattern at a node. *)
Definition function_match (n : Node) : option (Node * Node * Node) :=
  if bool_decide (type n = "function_definition") then
    match field_child n "name" "identifier",
          field_child n "parameters" "parameters",
          field_child n "body" "block" with
    | Some nm, Some ps, Some bd => Some (nm, ps, bd)
    | _, _, _ => None
    end
  else None.

Definition function_at (content_bytes : string) (n : Node) : option FunctionEntry :=
  match function_match n with
  | Some (nm, ps, bd) => Some (function_record content_bytes n nm ps bd)
  | None => None
  end.

Definition class_record (content_bytes : string) (n nm bd : Node) : ClassEntry :=
  mkClassEntry
    (get_node_text nm content_bytes)
    (docstring_of bd content_bytes)
    (get_node_text n content_bytes)
    (start_point n)
    (end_point n).

Definition class_match (n : Node) : option (Node * Node) :=
  if bool_decide (type n = "class_definition") then
    match field_child n "name" "identifier", field_child n "body" "block" with
    | Some nm, Some bd => Some (nm, bd)
    | _, _ => None
    end
  else None.

Definition class_at (content_bytes : string) (n : Node) : option ClassEntry :=
  match class_match n with
  | Some (nm, bd) => Some (class_record content_bytes n nm bd)
  | None => None
  end.

(** The [@name] capture of the [calls] pattern at a node: the callee, when
    the node is a call whose [function] field is a bare identifier. *)
Definition callee (n : Node) : option Node :=
  if bool_decide (type n = "call") then field_child n "function" "identifier"
  else None.

(** The nodes above a handle, nearest first: what repeated [.parent]
    visits. *)
Fixpoint ancestors_from (up : list (nat * Tree)) : list Node :=
  match up with
  | [] => []
  | (_, p) :: up' => mkNode p up' :: ancestors_from up'
  end.

Definition ancestors (n : Node) : list Node := ancestors_from (node_up n).

(** A node that spans at least one byte. *)
Definition has_width (n : Node) : bool := (start_byte n <? end_byte n)%nat.

(** Every node a query captures in the tree spans at least one byte. *)
Definition captures_have_width (q : Query) (root : Node) : bool :=
  forallb (fun cap => has_width cap.1) (captures q root).

(** The trees the statements about whole analyses are about: no
    expression statement is childless, and no capture of the function and
    class patterns is zero-width, so that [node.parent] of every filed
    capture is its definition. *)
Definition definitions_have_width (root : Node) : bool :=
  well_shaped root && captures_have_width functions_query root
  && captures_have_width classes_query root.

(** Every byte of the content is an ASCII character. *)
Fixpoint is_ascii_text (s : string) : bool :=
  match s with
  | EmptyString => true
  | String c s' => (nat_of_ascii c <? 128)%nat && is_ascii_text s'
  end.

(** ** [create_mermaid_chart] *)

(** networkx's [DiGraph] as far as the function uses it: [G._node] maps a
    node to its attribute dict, and the edge set holds the pairs [u -> v]. *)
Record DiGraph := mkDiGraph {
  g_node : gmap string (gmap string string);
  g_adj : gset (string * string)
}.

Definition empty_graph : DiGraph := mkDiGraph ∅ ∅.

Definition has_node (G : DiGraph) (n : string) : bool :=
  bool_decide (is_Some (g_node G !! n)).

(** [G.add_node(n, label=l)]: a new node gets the attribute dict, an
    existing one has it updated. *)
Definition add_node (G : DiGraph) (n l : string) : DiGraph :=
  mkDiGraph (<[ n := <[ "label" := l ]> (default ∅ (g_node G !! n)) ]> (g_node G))
            (g_adj G).

(** [G.add_edge(u, v)]: endpoints that are not nodes yet are added without
    attributes. *)
Definition add_edge (G : DiGraph) (u v : string) : DiGraph :=
  let with_node (nodes : gmap string (gmap string string)) (n : string) :=
    match nodes !! n with
    | Some _ => nodes
    | None => <[ n := ∅ ]> nodes
    end in
  mkDiGraph (with_node (with_node (g_node G) u) v) (g_adj G ∪ {[ (u, v) ]}).

(** [d[key]] on a node or edge dict of the input lists. *)
Definition dict_get (d : gmap string string) (key : string) : result string :=
  match d !! key with
  | Some v => ret v
  | None => raise (KeyError key)
  end.

(** Body of [for n in nodes]. *)
Definition add_explicit_node (G : DiGraph) (n : gmap string string)
  : result DiGraph :=
  do i <- dict_get n "id";
  do l <- dict_get n "label";
  ret (add_node G i l).

(** [if not G.has_node(e[key]): G.add_node(e[key], label=e[key])]. *)
Definition ensure_node (G : DiGraph) (e : gmap string string) (key : string)
  : result DiGraph :=
  do x <- dict_get e key;
  if has_node G x then ret G
  else (do x1 <- dict_get e key; do x2 <- dict_get e key; ret (add_node G x1 x2)).

(** Body of [for e in edges]. *)
Definition add_input_edge (G : DiGraph) (e : gmap string string)
  : result DiGraph :=
  do G1 <- ensure_node G e "from";
  do G2 <- ensure_node G1 e "to";
  do u <- dict_get e "from";
  do v <- dict_get e "to";
  ret (add_edge G2 u v).

(** The graph handed to the diagram builder. *)
Definition assemble_graph (nodes edges : list (gmap string string))
  : result DiGraph :=
  do G <- for_each add_explicit_node nodes empty_graph;
  for_each add_input_edge edges G.

(** [libs_loaded] is the test that [nx] and [nxm] are module globals;
    [build] stands for the [try] body: making the builder, building the
    diagram and taking its [str].  Whatever it raises is caught. *)
Definition create_mermaid_chart (libs_loaded : bool)
  (build : DiGraph -> result string) (nodes edges : list (gmap string string))
  : result string :=
  if negb libs_loaded then ret ""
  else
    match nodes with
    | [] => ret ""
    | _ :: _ =>
        do G <- assemble_graph nodes edges;
        match build G with
        | inr mermaid_diagram => ret mermaid_diagram
        | inl _ => ret ""
        end
    end.

(** The ids and endpoints an input mentions. *)
Definition explicit_ids (nodes : list (gmap string string)) : list string :=
  omap (fun n => n !! "id") nodes.

Definition is_endpoint (x : string) (e : gmap string string) : Prop :=
  e !! "from" = Some x \/ e !! "to" = Some x.

Definition node_dict_ok (n : gmap string string) : Prop :=
  is_Some (n !! "id") /\ is_Some (n !! "label").

Definition edge_dict_ok (e : gmap string string) : Prop :=
  is_Some (e !! "from") /\ is_Some (e !! "to").

(** ** The [try] body

    [nxm.builders.DiagramBuilder(orientation=nxm.DiagramOrientation.TOP_BOTTOM)]
    evaluates its argument before any builder exists.  networkx-mermaid's
    [DiagramOrientation] is an enumeration with the members [TOP_DOWN],
    [BOTTOM_UP], [LEFT_RIGHT] and [RIGHT_LEFT]; the attribute lookup of any
    other name on it raises [AttributeError]. *)
Definition DiagramOrientation (member : string) : result string :=
  if bool_decide (member ∈ ["TOP_DOWN"; "BOTTOM_UP"; "LEFT_RIGHT"; "RIGHT_LEFT"])
  then ret member
  else raise (AttributeError member).

(** The body of the [try] with that lookup made explicit; [build_with]
    stands for the construction of the builder, [builder.build(G)] and
    [str], which are reached only when the lookup succeeds. *)
Definition try_body (build_with : string -> DiGraph -> result string)
  (G : DiGraph) : result string :=
  do orientation <- DiagramOrientation "TOP_BOTTOM";
  build_with orientation G.

(** ** Sample inputs

    Source texts with the trees tree-sitter's Python grammar gives them,
    written out by hand: byte offsets and (row, column) points are those of
    the text. *)

Definition nl : string := String "010"%char EmptyString.

Definition leaf (ty : string) (fld : option string) (sb eb : nat)
  (r1 c1 r2 c2 : nat) : Tree :=
  TS ty fld sb eb (mkPoint r1 c1) (mkPoint r2 c2) [].

(** [()] at byte [sb] of row [r], column [c]: a parameter or argument list. *)
Definition parens (ty : string) (fld : string) (sb r c : nat) : Tree :=
  TS ty (Some fld) sb (sb + 2) (mkPoint r c) (mkPoint r (c + 2))
     [leaf "(" None sb (sb + 1) r c r (c + 1);
      leaf ")" None (sb + 1) (sb + 2) r (c + 1) r (c + 2)].

(** [g()] at byte [sb] of row [r], column [c], as a statement. *)
Definition call_g (sb r c : nat) : Tree :=
  TS "expression_statement" None sb (sb + 3) (mkPoint r c) (mkPoint r (c + 3))
     [TS "call" None sb (sb + 3) (mkPoint r c) (mkPoint r (c + 3))
         [leaf "identifier" (Some "function") sb (sb + 1) r c r (c + 1);
          parens "argument_list" "arguments" (sb + 1) r (c + 1)]].

(** A function with a docstring and one call. *)
Definition src_doc : string :=
  ("def f():" ++ nl ++ "    'doc'" ++ nl ++ "    g()" ++ nl)%string.

Definition string_doc : Tree :=
  TS "string" None 13 18 (mkPoint 1 4) (mkPoint 1 9)
     [leaf "string_start" None 13 14 1 4 1 5;
      leaf "string_content" None 14 17 1 5 1 8;
      leaf "string_end" None 17 18 1 8 1 9].

Definition tree_doc : Tree :=
  TS "module" None 0 27 (mkPoint 0 0) (mkPoint 3 0)
     [TS "function_definition" None 0 26 (mkPoint 0 0) (mkPoint 2 7)
         [leaf "def" None 0 3 0 0 0 3;
          leaf "identifier" (Some "name") 4 5 0 4 0 5;
          parens "parameters" "parameters" 5 0 5;
          leaf ":" None 7 8 0 7 0 8;
          TS "block" (Some "body") 13 26 (mkPoint 1 4) (mkPoint 2 7)
             [TS "expression_statement" None 13 18 (mkPoint 1 4) (mkPoint 1 9)
                 [string_doc];
              call_g 23 2 4]]].

(** A well-formed function followed by one unmatched closing brace; the
    parser recovers by wrapping the brace in an [ERROR] node. *)
Definition src_brace : string :=
  ("def f():" ++ nl ++ "    pass" ++ nl ++ "}" ++ nl)%string.

Definition tree_brace : Tree :=
  TS "module" None 0 20 (mkPoint 0 0) (mkPoint 3 0)
     [TS "function_definition" None 0 17 (mkPoint 0 0) (mkPoint 1 8)
         [leaf "def" None 0 3 0 0 0 3;
          leaf "identifier" (Some "name") 4 5 0 4 0 5;
          parens "parameters" "parameters" 5 0 5;
          leaf ":" None 7 8 0 7 0 8;
          TS "block" (Some "body") 13 17 (mkPoint 1 4) (mkPoint 1 8)
             [TS "pass_statement" None 13 17 (mkPoint 1 4) (mkPoint 1 8)
                 [leaf "pass" None 13 17 1 4 1 8]]];
      TS "ERROR" None 18 19 (mkPoint 2 0) (mkPoint 2 1)
         [leaf "}" None 18 19 2 0 2 1]].

(** [node.has_error]: the subtree holds an [ERROR] node. *)
Definition has_error (n : Node) : bool :=
  existsb (fun m => bool_decide (type m = "ERROR")) (descendants n).

(** A function [f] whose body defines another [f], which calls [g]. *)
Definition src_nested : string :=
  ("def f():" ++ nl ++ "    def f():" ++ nl ++ "        g()" ++ nl)%string.

Definition inner_f : Tree :=
  TS "function_definition" None 13 33 (mkPoint 1 4) (mkPoint 2 11)
     [leaf "def" None 13 16 1 4 1 7;
      leaf "identifier" (Some "name") 17 18 1 8 1 9;
      parens "parameters" "parameters" 18 1 9;
      leaf ":" None 20 21 1 11 1 12;
      TS "block" (Some "body") 30 33 (mkPoint 2 8) (mkPoint 2 11)
         [call_g 30 2 8]].

Definition outer_f : Tree :=
  TS "function_definition" None 0 33 (mkPoint 0 0) (mkPoint 2 11)
     [leaf "def" None 0 3 0 0 0 3;
      leaf "identifier" (Some "name") 4 5 0 4 0 5;
      parens "parameters" "parameters" 5 0 5;
      leaf ":" None 7 8 0 7 0 8;
      TS "block" (Some "body") 13 33 (mkPoint 1 4) (mkPoint 2 11) [inner_f]].

Definition tree_nested : Tree :=
  TS "module" None 0 34 (mkPoint 0 0) (mkPoint 3 0) [outer_f].

(** A method call at top level: the callee is an attribute, not a name. *)
Definition src_method : string := ("obj.m()" ++ nl)%string.

Definition call_method : Tree :=
  TS "call" None 0 7 (mkPoint 0 0) (mkPoint 0 7)
     [TS "attribute" (Some "function") 0 5 (mkPoint 0 0) (mkPoint 0 5)
         [leaf "identifier" (Some "object") 0 3 0 0 0 3;
          leaf "." None 3 4 0 3 0 4;
          leaf "identifier" (Some "attribute") 4 5 0 4 0 5];
      parens "argument_list" "arguments" 5 0 5].

Definition tree_method : Tree :=
  TS "module" None 0 8 (mkPoint 0 0) (mkPoint 1 0)
     [TS "expression_statement" None 0 7 (mkPoint 0 0) (mkPoint 0 7)
         [call_method]].

(** The empty module, the tree of the empty text. *)
Definition tree_empty : Tree :=
  TS "module" None 0 0 (mkPoint 0 0) (mkPoint 0 0) [].

(** Handles into the samples: the definition of [f] in [tree_doc] with its
    captured children, and the callee [g] inside the inner [f] of
    [tree_nested] with the steps that lead up to it. *)
Definition def_doc : Node :=
  match children (root_node tree_doc) with
  | d :: _ => d
  | [] => root_node tree_doc
  end.

Definition name_doc : Node := default def_doc (children def_doc !! 1).
Definition params_doc : Node := default def_doc (children def_doc !! 2).
Definition body_doc : Node := default def_doc (children def_doc !! 4).

Definition def_brace : Node :=
  default (root_node tree_brace) (children (root_node tree_brace) !! 0).

Definition outer_body : Tree :=
  TS "block" (Some "body") 13 33 (mkPoint 1 4) (mkPoint 2 11) [inner_f].

Definition inner_body : Tree :=
  TS "block" (Some "body") 30 33 (mkPoint 2 8) (mkPoint 2 11) [call_g 30 2 8].

Definition outer_up : list (nat * Tree) :=
  [(0, outer_body); (4, outer_f); (0, tree_nested)].

Definition callee_up : list (nat * Tree) :=
  [(0, TS "call" None 30 33 (mkPoint 2 8) (mkPoint 2 11)
         [leaf "identifier" (Some "function") 30 31 2 8 2 9;
          parens "argument_list" "arguments" 31 2 9]);
   (0, call_g 30 2 8);
   (0, inner_body)].

Definition callee_g : Node :=
  mkNode (leaf "identifier" (Some "function") 30 31 2 8 2 9)
         (callee_up ++ (4, inner_f) :: outer_up).

Definition inner_node : Node := mkNode inner_f outer_up.

Definition method_node : Node :=
  mkNode call_method
         [(0, TS "expression_statement" None 0 7 (mkPoint 0 0) (mkPoint 0 7)
                 [call_method]);
          (0, tree_method)].

Definition inner_name : Node := default inner_node (children inner_node !! 1).
Definition inner_params : Node := default inner_node (children inner_node !! 2).
Definition inner_block : Node := default inner_node (children inner_node !! 4).

(** The text of [src_nested] with the outer function named [a] and the
    inner one [b].  Only the two names differ, so its tree is
    [tree_nested], span for span. *)
Definition src_ab : string :=
  ("def a():" ++ nl ++ "    def b():" ++ nl ++ "        g()" ++ nl)%string.

Definition call_node_g : Node :=
  mkNode (TS "call" None 30 33 (mkPoint 2 8) (mkPoint 2 11)
            [leaf "identifier" (Some "function") 30 31 2 8 2 9;
             parens "argument_list" "arguments" 31 2 9])
         ([(0, call_g 30 2 8); (0, inner_body)] ++ (4, inner_f) :: outer_up).

(** ** Further sample inputs *)

(** A class with a docstring and a call in its body. *)
Definition src_class : string :=
  ("class K:" ++ nl ++ "    'doc'" ++ nl ++ "    g()" ++ nl)%string.

Definition tree_class : Tree :=
  TS "module" None 0 27 (mkPoint 0 0) (mkPoint 3 0)
     [TS "class_definition" None 0 26 (mkPoint 0 0) (mkPoint 2 7)
         [leaf "class" None 0 5 0 0 0 5;
          leaf "identifier" (Some "name") 6 7 0 6 0 7;
          leaf ":" None 7 8 0 7 0 8;
          TS "block" (Some "body") 13 26 (mkPoint 1 4) (mkPoint 2 7)
             [TS "expression_statement" None 13 18 (mkPoint 1 4) (mkPoint 1 9)
                 [string_doc];
              call_g 23 2 4]]].

Definition def_class : Node :=
  default (root_node tree_class) (children (root_node tree_class) !! 0).
Definition name_class : Node := default def_class (children def_class !! 1).
Definition body_class : Node := default def_class (children def_class !! 3).

(** ** [analyze_jac_code]

    Python strings are lists of code points here, so that [strip] sees the
    characters Python calls whitespace.  The Jac parser and its syntax tree
    are not part of the repository: an item of [root_node.body] is one of
    the two classes the code tests for, or something else, and each
    attribute chain the code reads from it either yields a value or raises.
    [item.to_jac_str().split('{').strip()] is read with the subscript [0]
    after [split], like the other subscripts missing from the source text. *)

Definition pystr : Type := list N.

(** [str.isspace] on one character. *)
Definition isspace (c : N) : bool :=
  ((9 <=? c) && (c <=? 13) || (28 <=? c) && (c <=? 32) || (c =? 133) ||
   (c =? 160) || (c =? 5760) || (8192 <=? c) && (c <=? 8202) || (c =? 8232) ||
   (c =? 8233) || (c =? 8239) || (c =? 8287) || (c =? 12288))%N.

(** [s.split(sep)] for a one-character separator. *)
Fixpoint split (sep : N) (s : pystr) : list pystr :=
  match s with
  | [] => [[]]
  | c :: s' =>
      if (c =? sep)%N then [] :: split sep s'
      else match split sep s' with
           | p :: ps => (c :: p) :: ps
           | [] => [[c]]
           end
  end.

Fixpoint lstrip (s : pystr) : pystr :=
  match s with
  | [] => []
  | c :: s' => if isspace c then lstrip s' else s
  end.

Definition rstrip (s : pystr) : pystr := rev (lstrip (rev s)).

(** [s.strip()]. *)
Definition strip (s : pystr) : pystr := rstrip (lstrip s).

Definition brace : N := 123%N.

(** What the code reads from an [Architype] or an [Ability]: the name
    ([item.name.value], [item.name_ref.name_spec.value]), the docstring
    object ([None] when [item.doc] is falsy, else [item.doc.value]),
    [item.to_jac_str()] and the two line numbers of [item.loc]. *)
Record JacNode := mkJacNode {
  jn_name : result pystr;
  jn_doc : result (option pystr);
  jn_to_jac_str : result pystr;
  jn_first_line : result Z;
  jn_last_line : result Z
}.

Inductive JacItem : Type :=
| Architype (item : JacNode)
| Ability (item : JacNode)
| OtherItem.

Record JacClass := mkJacClass {
  jc_name : pystr;
  jc_docstring : pystr;
  jc_code_body : pystr;
  jc_start_line : Z;
  jc_end_line : Z
}.

Record JacFunction := mkJacFunction {
  jf_name : pystr;
  jf_signature : pystr;
  jf_docstring : pystr;
  jf_code_body : pystr;
  jf_start_line : Z;
  jf_end_line : Z
}.

Record JacResults := mkJacResults {
  jac_functions : list JacFunction;
  jac_classes : list JacClass;
  jac_calls : list CallEntry;
  jac_imports : list ImportEntry
}.

Definition empty_jac_results : JacResults := mkJacResults [] [] [] [].

(** [item.doc.value if item.doc else ""]. *)
Definition doc_value (item : JacNode) : result pystr :=
  do d <- jn_doc item;
  ret (default [] d).

(** Body of [for item in root_node.body]. *)
Definition jac_item (results : JacResults) (item : JacItem) : result JacResults :=
  match item with
  | Architype a =>
      do name <- jn_name a;
      do doc <- doc_value a;
      do code <- jn_to_jac_str a;
      do first <- jn_first_line a;
      do last <- jn_last_line a;
      ret (mkJacResults (jac_functions results)
             (jac_classes results ++ [mkJacClass name doc code first last])
             (jac_calls results) (jac_imports results))
  | Ability a =>
      do name <- jn_name a;
      do text <- jn_to_jac_str a;
      do head <- first_item (split brace text);
      do doc <- doc_value a;
      do code <- jn_to_jac_str a;
      do first <- jn_first_line a;
      do last <- jn_last_line a;
      ret (mkJacResults
             (jac_functions results
                ++ [mkJacFunction name (strip head) doc code first last])
             (jac_classes results) (jac_calls results) (jac_imports results))
  | OtherItem => ret results
  end.

(** [parse] stands for [JacParser(...).ir]: it raises, or yields [None] when
    the root is falsy or has no [body], or yields the items of the body.
    The [try] covers the whole function, so nothing it raises gets out. *)
Definition analyze_jac_code (parse : string -> result (option (list JacItem)))
  (file_content : string) : JacResults :=
  let attempt :=
    do root <- parse file_content;
    match root with
    | Some body => for_each jac_item body empty_jac_results
    | None => ret empty_jac_results
    end in
  match attempt with
  | inr results => results
  | inl _ => empty_jac_results
  end.

(** All five reads of an item succeed. *)
Definition reads_ok (a : JacNode) : bool :=
  match jn_name a, jn_doc a, jn_to_jac_str a, jn_first_line a, jn_last_line a with
  | inr _, inr _, inr _, inr _, inr _ => true
  | _, _, _, _, _ => false
  end.

Definition item_ok (item : JacItem) : bool :=
  match item with
  | Architype a | Ability a => reads_ok a
  | OtherItem => true
  end.

(** Sample Jac items: a walker [w] with a docstring and an ability whose
    location cannot be read. *)
Definition jac_walker : JacNode :=
  mkJacNode (inr [119%N]) (inr (Some [100; 111; 99]%N))
            (inr [119; 97; 108; 107; 101; 114; 32; 119; 32; 123; 125]%N)
            (inr 1%Z) (inr 1%Z).

Definition jac_broken : JacNode :=
  mkJacNode (inr [103%N]) (inr None) (inr [99; 97; 110; 32; 103]%N)
            (inr 3%Z) (inl (AttributeError "last_line")).

Definition jac_parse_broken (_ : string) : result (option (list JacItem)) :=
  inr (Some [Architype jac_walker; Ability jac_broken]).

(** ** [save_markdown]

    Paths are byte strings; [os.path.join] is the POSIX one.  The file
    system is not modelled: the state of the world is threaded through the
    two operations the function performs, each of which returns the new
    state or raises. *)

Definition startswith_sep (b : string) : bool :=
  match b with
  | String c _ => Ascii.eqb c "/"
  | EmptyString => false
  end.

Fixpoint endswith_sep (a : string) : bool :=
  match a with
  | EmptyString => false
  | String c EmptyString => Ascii.eqb c "/"
  | String _ a' => endswith_sep a'
  end.

(** [os.path.join(a, b)]: an absolute [b] replaces [a]; otherwise [b] is
    appended, after a separator unless [a] is empty or ends with one. *)
Definition path_join (a b : string) : string :=
  if startswith_sep b then b
  else if bool_decide (a = "") || endswith_sep a then (a ++ b)%string
  else (a ++ "/" ++ b)%string.

Section save_markdown.
Context {World : Type}.
(** [os.makedirs(path, exist_ok=True)]. *)
Variable makedirs : World -> string -> result World.
(** [open(path, "w", encoding="utf-8")] and [f.write(content)]. *)
Variable write_file : World -> string -> string -> result World.

Definition save_markdown (w : World) (repo_name content : string)
  : result (World * string) :=
  let output_dir := path_join "./outputs" repo_name in
  do w1 <- makedirs w output_dir;
  let save_path := path_join output_dir "docs.md" in
  do w2 <- write_file w1 save_path content;
  ret (w2, save_path).
End save_markdown.

(** A world for the samples: the files written so far, by path; both
    operations succeed. *)
Definition memory_makedirs (w : gmap string string) (_ : string)
  : result (gmap string string) := inr w.

Definition memory_write (w : gmap string string) (path content : string)
  : result (gmap string string) := inr (<[ path := content ]> w).

(** * Properties *)

(** ** Structure of the traversal *)

Lemma node_eta (n : Node) : mkNode (node_tree n) (node_up n) = n.
Proof. by destruct n. Qed.

Lemma walk_children_fix (t : Tree) (up : list (nat * Tree)) (i : nat) (l : list Tree) :
  (fix go (i : nat) (l : list Tree) : list Node :=
     match l with
     | [] => []
     | c :: l' => walk c ((i, t) :: up) ++ go (S i) l'
     end) i l = walk_children t up i l.
Proof.
  revert i. induction l as [|c l IH]; intros i; simpl; [done|]. by rewrite IH.
Qed.

Lemma walk_unfold (t : Tree) (up : list (nat * Tree)) :
  walk t up = mkNode t up :: walk_children t up 0 (t_children t).
Proof.
  destruct t as [ty f sb eb sp ep cs]; simpl. f_equal. apply walk_children_fix.
Qed.

Lemma descendants_unfold (n : Node) :
  descendants n = n :: walk_children (node_tree n) (node_up n) 0 (t_children (node_tree n)).
Proof. unfold descendants. by rewrite walk_unfold, node_eta. Qed.

Lemma children_from_parent p up i cs c :
  c ∈ children_from p up i cs -> parent c = Some (mkNode p up).
Proof.
  revert i. induction cs as [|c' cs IH]; intros i; simpl.
  - by intros ?%elem_of_nil.
  - intros [->|Hin]%elem_of_cons; [done|by eapply IH].
Qed.

(** A child handle's [parent] is the node it was taken from. *)
Lemma children_parent (n c : Node) : c ∈ children n -> parent c = Some n.
Proof.
  unfold children. intros Hc%children_from_parent. by rewrite node_eta in Hc.
Qed.

Lemma children_from_walk p up i cs c :
  c ∈ children_from p up i cs -> c ∈ walk_children p up i cs.
Proof.
  revert i. induction cs as [|c' cs IH]; intros i; simpl.
  - by intros ?%elem_of_nil.
  - intros [->|Hin]%elem_of_cons; apply elem_of_app.
    + left. rewrite walk_unfold. apply elem_of_cons; by left.
    + right. by apply IH.
Qed.

Lemma children_descendants (n c : Node) : c ∈ children n -> c ∈ descendants n.
Proof.
  intros Hc. rewrite descendants_unfold. apply elem_of_cons; right.
  by apply children_from_walk.
Qed.

(** The traversal of a node appears as one block inside the traversal of any
    node above it. *)
Lemma walk_block (t : Tree) : forall up n,
  n ∈ walk t up -> exists l1 l2, walk t up = l1 ++ descendants n ++ l2.
Proof.
  induction t as [ty f sb eb sp ep cs IH] using Tree_ind'. intros up n Hin.
  rewrite walk_unfold in Hin. simpl t_children in Hin.
  apply elem_of_cons in Hin as [->|Hin].
  - exists [], []. by rewrite app_nil_r.
  - rewrite walk_unfold. simpl t_children.
    set (t := TS ty f sb eb sp ep cs) in *.
    assert (exists l1 l2, walk_children t up 0 cs = l1 ++ descendants n ++ l2)
      as (l1 & l2 & Heq).
    { clearbody t. revert Hin. generalize 0 as i.
      induction IH as [|c cs' Hc _ IHcs]; intros i; simpl.
      - by intros ?%elem_of_nil.
      - intros [Hin|Hin]%elem_of_app.
        + destruct (Hc _ _ Hin) as (l1 & l2 & ->).
          exists l1, (l2 ++ walk_children t up (S i) cs').
          by rewrite <- !app_assoc.
        + destruct (IHcs _ Hin) as (l1 & l2 & ->).
          exists (walk c ((i, t) :: up) ++ l1), l2.
          by rewrite <- !app_assoc. }
    exists (mkNode t up :: l1), l2. by rewrite Heq.
Qed.

Lemma descendants_block (r n : Node) :
  n ∈ descendants r -> exists l1 l2, descendants r = l1 ++ descendants n ++ l2.
Proof. apply walk_block. Qed.

Lemma descendants_trans (r n m : Node) :
  n ∈ descendants r -> m ∈ descendants n -> m ∈ descendants r.
Proof.
  intros (l1 & l2 & ->)%descendants_block Hm.
  apply elem_of_app; right. apply elem_of_app; by left.
Qed.

(** Every node below a handle keeps that handle's way up as the tail of its
    own; below child [i] the next step is [i]. *)
Lemma walk_up_suffix (t : Tree) : forall up n,
  n ∈ walk t up -> exists pre, node_up n = pre ++ up.
Proof.
  induction t as [ty f sb eb sp ep cs IH] using Tree_ind'. intros up n.
  rewrite walk_unfold. simpl t_children.
  intros [->|Hin]%elem_of_cons; [by exists []|].
  set (t := TS ty f sb eb sp ep cs) in *. clearbody t.
  revert Hin. generalize 0 as i.
  induction IH as [|c cs' Hc _ IHcs]; intros i; simpl.
  - by intros ?%elem_of_nil.
  - intros [Hin|Hin]%elem_of_app.
    + destruct (Hc _ _ Hin) as (pre & ->).
      exists (pre ++ [(i, t)]). by rewrite <- app_assoc.
    + by eapply IHcs.
Qed.

Lemma walk_children_id p up i cs n :
  n ∈ walk_children p up i cs ->
  exists pre j, i <= j /\ node_id n = pre ++ j :: map fst up.
Proof.
  revert i. induction cs as [|c cs IH]; intros i; simpl.
  - by intros ?%elem_of_nil.
  - intros [Hin|Hin]%elem_of_app.
    + destruct (walk_up_suffix _ _ _ Hin) as (pre & Hup).
      exists (map fst pre), i. split; [lia|].
      unfold node_id. by rewrite Hup, map_app.
    + destruct (IH _ Hin) as (pre & j & Hle & Hid).
      exists pre, j. split; [lia|done].
Qed.

Lemma walk_child_id c p up i n :
  n ∈ walk c ((i, p) :: up) -> exists pre, node_id n = pre ++ i :: map fst up.
Proof.
  intros (pre & Hup)%walk_up_suffix. exists (map fst pre).
  unfold node_id. by rewrite Hup, map_app.
Qed.

(** [node.id] names a node: no two nodes of one traversal share it. *)
Lemma walk_NoDup_id (t : Tree) : forall up, NoDup (map node_id (walk t up)).
Proof.
  induction t as [ty f sb eb sp ep cs IH] using Tree_ind'. intros up.
  rewrite walk_unfold. simpl t_children.
  set (t := TS ty f sb eb sp ep cs) in *. clearbody t.
  rewrite map_cons. apply NoDup_cons. split.
  - intros (n & Hid & Hin)%list_elem_of_fmap.
    apply walk_children_id in Hin as (pre & j & _ & Hn).
    unfold node_id in Hid at 1. simpl in Hid. rewrite Hn in Hid.
    apply (f_equal length) in Hid. rewrite length_app in Hid. simpl in Hid. lia.
  - generalize 0 as i.
    induction IH as [|c cs' Hc _ IHcs]; intros i; simpl; [constructor|].
    rewrite map_app. apply NoDup_app. split; [apply Hc|]. split; [|apply IHcs].
    intros x (n & -> & Hin)%list_elem_of_fmap (m & Hid & Hm)%list_elem_of_fmap.
    apply walk_child_id in Hin as (pre & Hn).
    apply walk_children_id in Hm as (pre' & j & Hle & Hm).
    rewrite Hn, Hm in Hid.
    change (pre ++ i :: map fst up) with (pre ++ [i] ++ map fst up) in Hid.
    change (pre' ++ j :: map fst up) with (pre' ++ [j] ++ map fst up) in Hid.
    rewrite !app_assoc in Hid. apply app_inv_tail in Hid.
    apply app_inj_tail in Hid as [_ ->]. lia.
Qed.

Lemma descendants_NoDup_id (r : Node) : NoDup (map node_id (descendants r)).
Proof. apply walk_NoDup_id. Qed.

(** ** The error monad and the ordered dictionaries *)

Lemma for_each_app {A S} (body : S -> A -> result S) (xs ys : list A) (s : S) :
  for_each body (xs ++ ys) s = do s' <- for_each body xs s; for_each body ys s'.
Proof.
  revert s. induction xs as [|x xs IH]; intros s; simpl; [done|].
  destruct (body s x) as [e|s']; simpl; [done|apply IH].
Qed.

Section odict_facts.
Context {K V : Type} `{EqDecision K}.
Implicit Types (k : K) (v : V) (d : list (K * V)).

Lemma odict_mem_app k d1 d2 :
  odict_mem k (d1 ++ d2) = odict_mem k d1 || odict_mem k d2.
Proof. unfold odict_mem. apply existsb_app. Qed.

Lemma odict_mem_here k v d : odict_mem k ((k, v) :: d) = true.
Proof. unfold odict_mem; simpl. by rewrite bool_decide_eq_true_2. Qed.

Lemma odict_set_fresh k v d :
  odict_mem k d = false -> odict_set k v d = d ++ [(k, v)].
Proof.
  induction d as [|[k' v'] d IH]; simpl; [done|].
  unfold odict_mem; simpl. case_bool_decide; simpl; [done|].
  intros Hd. by rewrite IH.
Qed.

Lemma odict_update_at k f d1 v d2 :
  odict_mem k d1 = false ->
  odict_update k f (d1 ++ (k, v) :: d2) = d1 ++ (k, f v) :: d2.
Proof.
  induction d1 as [|[k' v'] d1 IH]; simpl.
  - intros _. by rewrite bool_decide_eq_true_2.
  - unfold odict_mem; simpl. case_bool_decide; simpl; [done|].
    intros Hd. by rewrite IH.
Qed.
End odict_facts.

(** ** What the two extraction loops compute *)

Lemma field_child_spec (n c : Node) (f ty : string) :
  field_child n f ty = Some c ->
  c ∈ children n /\ field_name c = Some f /\ type c = ty.
Proof.
  unfold field_child. intros [Hin Hb]%find_some.
  apply andb_true_iff in Hb as [Hf Ht].
  apply bool_decide_eq_true in Hf. apply bool_decide_eq_true in Ht.
  split; [by apply list_elem_of_In|done].
Qed.

Lemma match_fields_spec (n : Node) (fs : list (string * string * string)) caps :
  match_fields n fs = Some caps ->
  Forall2 (fun cap spec => cap.2 = spec.2 /\
                           field_child n spec.1.1 spec.1.2 = Some cap.1) caps fs.
Proof.
  revert caps. induction fs as [|[[f ty] cap] fs IH]; intros caps; simpl.
  - intros [= <-]. constructor.
  - destruct (field_child n f ty) as [c|] eqn:Hc; [|done].
    destruct (match_fields n fs) as [rest|]; [|done].
    intros [= <-]. constructor; [done|by apply IH].
Qed.

Section collect.
Variables (def_capture : string) (keys : list string).

Lemma collect_fields (n : Node) (caps : list (Node * string)) :
  forall pre data post,
  Forall (fun cap => cap.2 <> def_capture /\ cap.2 ∈ keys /\
                     parent cap.1 = Some n) caps ->
  odict_mem (node_id n) pre = false ->
  for_each (collect def_capture keys) caps (pre ++ (node_id n, data) :: post)
  = inr (pre ++ (node_id n,
                 fold_left (fun data cap => <[ cap.2 := cap.1 ]> data) caps data)
             :: post).
Proof.
  induction caps as [|[c cap] caps IH]; intros pre data post Hcaps Hpre; simpl.
  - done.
  - apply Forall_cons in Hcaps as [(Hne & Hkey & Hpar) Hcaps]. simpl in *.
    rewrite bool_decide_eq_false_2 by done.
    rewrite bool_decide_eq_true_2 by done.
    rewrite Hpar, odict_mem_app, odict_mem_here, orb_true_r.
    rewrite odict_update_at by done. simpl. by apply IH.
Qed.

Lemma match_at_cases (q : Query) (n : Node) :
  (opened q n = None /\ match_at q n = []) \/
  (exists caps, match_fields n (q_fields q) = Some caps /\
                opened q n = Some (node_id n, group_data n caps) /\
                match_at q n = (n, q_capture q) :: caps).
Proof.
  unfold opened, match_at. case_bool_decide; [|by left].
  destruct (match_fields n (q_fields q)) as [caps|]; [|by left].
  right. by exists caps.
Qed.

Lemma collect_all (q : Query) (l : list Node) :
  q_capture q = def_capture ->
  Forall (fun spec => spec.2 <> def_capture /\ spec.2 ∈ keys) (q_fields q) ->
  forall nodes,
  NoDup (map node_id l) ->
  Forall (fun n => odict_mem (node_id n) nodes = false) l ->
  for_each (collect def_capture keys) (flat_map (match_at q) l) nodes
  = inr (nodes ++ omap (opened q) l).
Proof.
  intros Hcap Hq. induction l as [|n l IH]; intros nodes Hnd Hfresh.
  - simpl. by rewrite app_nil_r.
  - cbn [map] in Hnd. apply NoDup_cons in Hnd as [Hn Hnd].
    apply Forall_cons in Hfresh as [Hfn Hfresh].
    cbn [flat_map omap list_omap]. rewrite for_each_app.
    destruct (match_at_cases q n) as [[-> ->]|(caps & Hm & -> & ->)].
    { simpl. by apply IH. }
    rewrite Hcap. cbn [for_each]. unfold collect at 1.
    rewrite bool_decide_eq_true_2 by done. cbn [bind ret].
    rewrite odict_set_fresh by done.
    rewrite (collect_fields n caps nodes _ []); [|..|done].
    + cbn [bind]. rewrite IH; [by rewrite <- app_assoc|done|].
      apply Forall_forall. intros m Hm'.
      rewrite odict_mem_app. rewrite Forall_forall in Hfresh.
      rewrite (Hfresh m Hm'). unfold odict_mem; simpl.
      rewrite orb_false_r. apply bool_decide_eq_false_2.
      intros Heq. apply Hn. rewrite Heq. apply list_elem_of_fmap. by exists m.
    + apply match_fields_spec in Hm. clear -Hm Hq.
      induction Hm as [|cap spec caps fs [Hname Hchild] _ IHm]; [constructor|].
      apply Forall_cons in Hq as [[Hne Hkey] Hq].
      constructor; [|by apply IHm].
      rewrite Hname. repeat split; [done..|].
      apply field_child_spec in Hchild as [Hin _]. by apply children_parent.
Qed.
End collect.

Lemma append_entries {E} (entry : gmap string Node -> result E)
  (ds : list (gmap string Node)) (es : list E) :
  Forall2 (fun data e => is_Some (data !! "name") /\ entry data = inr e) ds es ->
  forall acc, for_each (append_entry entry) ds acc = inr (acc ++ es).
Proof.
  induction 1 as [|data e ds es [[nm Hnm] He] _ IH]; intros acc; simpl.
  - by rewrite app_nil_r.
  - unfold append_entry at 1. rewrite Hnm, He. simpl.
    rewrite IH. by rewrite <- app_assoc.
Qed.

(** *** Docstrings *)

Lemma get_docstring_ok (body_node : Node) (content_bytes : string) :
  (forall c0, c0 ∈ children body_node -> statement_ok c0 = true) ->
  get_docstring body_node content_bytes = inr (docstring_of body_node content_bytes).
Proof.
  intros Hok. unfold get_docstring, docstring_of, child_count.
  destruct (children body_node) as [|c0 cs] eqn:Hcs; simpl; [done|].
  specialize (Hok c0 ltac:(apply elem_of_cons; by left)).
  unfold statement_ok, child_count in Hok.
  case_bool_decide; simpl in *; [|done].
  destruct (children c0) as [|c00 cs0]; simpl in *; [done|].
  by case_bool_decide.
Qed.

(** A childless [expression_statement] at the head of a body is the one
    shape on which [get_docstring] raises. *)
Lemma get_docstring_raises (body_node c0 : Node) (cs : list Node) (content_bytes : string) :
  children body_node = c0 :: cs ->
  type c0 = "expression_statement" ->
  children c0 = [] ->
  get_docstring body_node content_bytes = inl IndexError.
Proof.
  intros Hcs Hty Hc0. unfold get_docstring, child_count. rewrite Hcs. simpl.
  rewrite bool_decide_eq_true_2 by done. by rewrite Hc0.
Qed.

Lemma well_shaped_at (root n : Node) :
  well_shaped root = true -> n ∈ descendants root -> statement_ok n = true.
Proof.
  unfold well_shaped. rewrite forallb_forall. intros H Hn.
  apply H. by apply list_elem_of_In.
Qed.

Lemma well_shaped_bodies_ok (root : Node) :
  well_shaped root = true -> bodies_ok root.
Proof.
  intros Hws n c c0 Hn Hc Hc0. apply (well_shaped_at root); [done|].
  eapply descendants_trans; [done|].
  eapply descendants_trans; by apply children_descendants.
Qed.

(** *** The three result lists *)

Lemma py_queries_functions : py_queries "functions" = Some functions_query.
Proof. reflexivity. Qed.

Lemma py_queries_classes : py_queries "classes" = Some classes_query.
Proof. reflexivity. Qed.

Lemma py_queries_calls : py_queries "calls" = Some calls_query.
Proof. reflexivity. Qed.

Ltac map_lookup := repeat (rewrite lookup_insert_ne by done);
  first [apply lookup_insert_eq | apply lookup_singleton_eq].

Lemma function_entries (content_bytes : string) (l : list Node) :
  (forall n c c0, n ∈ l -> c ∈ children n -> c0 ∈ children c ->
                  statement_ok c0 = true) ->
  Forall2 (fun data e => is_Some (data !! "name") /\
                         function_entry content_bytes data = inr e)
          (odict_values (omap (opened functions_query) l))
          (omap (function_at content_bytes) l).
Proof.
  induction l as [|n l IH]; intros Hok; [constructor|].
  assert (Forall2 (fun data e => is_Some (data !! "name") /\
                                 function_entry content_bytes data = inr e)
            (odict_values (omap (opened functions_query) l))
            (omap (function_at content_bytes) l)) as IH'.
  { apply IH. intros m c c0 Hm. apply Hok, elem_of_cons. by right. }
  clear IH. cbn [omap list_omap]. unfold opened, function_at, function_match.
  cbn [q_type q_fields functions_query match_fields].
  case_bool_decide; [|done].
  destruct (field_child n "name" "identifier") as [nm|]; [|done].
  destruct (field_child n "parameters" "parameters") as [ps|]; [|done].
  destruct (field_child n "body" "block") as [bd|] eqn:Hbd; [|done].
  cbn [odict_values map snd]. constructor; [|done].
  unfold group_data. cbn [fold_left fst snd].
  set (data := <[ "body" := bd ]> _).
  assert (data !! "name" = Some nm) as Hnm by (subst data; map_lookup).
  assert (data !! "params" = Some ps) as Hps by (subst data; map_lookup).
  assert (data !! "body" = Some bd) as Hb by (subst data; map_lookup).
  assert (data !! "def_node" = Some n) as Hdn by (subst data; map_lookup).
  split; [by eexists|].
  unfold function_entry, getitem. rewrite Hnm, Hps, Hb, Hdn. cbn [bind ret].
  rewrite get_docstring_ok; [done|].
  intros c0 Hc0. apply field_child_spec in Hbd as [Hin _].
  eapply Hok; [apply elem_of_cons; by left|done..].
Qed.

Lemma class_entries (content_bytes : string) (l : list Node) :
  (forall n c c0, n ∈ l -> c ∈ children n -> c0 ∈ children c ->
                  statement_ok c0 = true) ->
  Forall2 (fun data e => is_Some (data !! "name") /\
                         class_entry content_bytes data = inr e)
          (odict_values (omap (opened classes_query) l))
          (omap (class_at content_bytes) l).
Proof.
  induction l as [|n l IH]; intros Hok; [constructor|].
  assert (Forall2 (fun data e => is_Some (data !! "name") /\
                                 class_entry content_bytes data = inr e)
            (odict_values (omap (opened classes_query) l))
            (omap (class_at content_bytes) l)) as IH'.
  { apply IH. intros m c c0 Hm. apply Hok, elem_of_cons. by right. }
  clear IH. cbn [omap list_omap]. unfold opened, class_at, class_match.
  cbn [q_type q_fields classes_query match_fields].
  case_bool_decide; [|done].
  destruct (field_child n "name" "identifier") as [nm|]; [|done].
  destruct (field_child n "body" "block") as [bd|] eqn:Hbd; [|done].
  cbn [odict_values map snd]. constructor; [|done].
  unfold group_data. cbn [fold_left fst snd].
  set (data := <[ "body" := bd ]> _).
  assert (data !! "name" = Some nm) as Hnm by (subst data; map_lookup).
  assert (data !! "body" = Some bd) as Hb by (subst data; map_lookup).
  assert (data !! "def_node" = Some n) as Hdn by (subst data; map_lookup).
  split; [by eexists|].
  unfold class_entry, getitem. rewrite Hnm, Hb, Hdn. cbn [bind ret].
  rewrite get_docstring_ok; [done|].
  intros c0 Hc0. apply field_child_spec in Hbd as [Hin _].
  eapply Hok; [apply elem_of_cons; by left|done..].
Qed.

Lemma fresh_in_empty (l : list Node) :
  Forall (fun n => odict_mem (V:=gmap string Node) (node_id n) [] = false) l.
Proof. by apply Forall_forall. Qed.

(** [results["functions"]]: one record per matching definition node, in
    document order. *)
Lemma extract_functions_spec (content_bytes : string) (root : Node) :
  bodies_ok root ->
  extract_functions content_bytes root
  = inr (omap (function_at content_bytes) (descendants root)).
Proof.
  intros Hws. unfold extract_functions, query_of.
  rewrite py_queries_functions. cbn [bind ret]. unfold captures.
  rewrite (collect_all _ _ functions_query);
    [|done|repeat constructor; set_solver|apply descendants_NoDup_id
     |apply fresh_in_empty].
  cbn [bind app]. rewrite (append_entries _ _ (omap (function_at content_bytes) (descendants root))); [done|].
  apply function_entries. intros n c c0 Hn. by apply Hws.
Qed.

Lemma extract_classes_spec (content_bytes : string) (root : Node) :
  bodies_ok root ->
  extract_classes content_bytes root
  = inr (omap (class_at content_bytes) (descendants root)).
Proof.
  intros Hws. unfold extract_classes, query_of.
  rewrite py_queries_classes. cbn [bind ret]. unfold captures.
  rewrite (collect_all _ _ classes_query);
    [|done|repeat constructor; set_solver|apply descendants_NoDup_id
     |apply fresh_in_empty].
  cbn [bind app]. rewrite (append_entries _ _ (omap (class_at content_bytes) (descendants root))); [done|].
  apply class_entries. intros n c c0 Hn. by apply Hws.
Qed.

Lemma match_at_calls (n : Node) :
  match_at calls_query n
  = match callee n with
    | Some c => [(n, "call"); (c, "name")]
    | None => []
    end.
Proof.
  unfold match_at, callee. cbn [q_type q_fields q_capture calls_query match_fields].
  case_bool_decide; [|done].
  by destruct (field_child n "function" "identifier").
Qed.

Lemma append_calls (content_bytes : string) (l : list Node) :
  forall acc,
  fold_left (append_call content_bytes) (flat_map (match_at calls_query) l) acc
  = acc ++ map (call_entry content_bytes) (omap callee l).
Proof.
  induction l as [|n l IH]; intros acc; cbn [flat_map omap list_omap].
  - simpl. by rewrite app_nil_r.
  - rewrite fold_left_app, match_at_calls.
    destruct (callee n) as [c|]; simpl; [|apply IH].
    rewrite IH. by rewrite <- app_assoc.
Qed.

(** [results["calls"]]: one record per call whose callee is a bare
    identifier, in document order. *)
Lemma extract_calls_spec (content_bytes : string) (root : Node) :
  extract_calls content_bytes root
  = inr (map (call_entry content_bytes) (omap callee (descendants root))).
Proof.
  unfold extract_calls, query_of. rewrite py_queries_calls. cbn [bind ret].
  unfold captures. by rewrite append_calls.
Qed.

Lemma analyze_python_code_spec (parse : string -> Tree) (file_content : string) :
  bodies_ok (root_node (parse file_content)) ->
  analyze_python_code parse file_content
  = inr (mkResults
           (omap (function_at file_content) (descendants (root_node (parse file_content))))
           (omap (class_at file_content) (descendants (root_node (parse file_content))))
           (map (call_entry file_content)
                (omap callee (descendants (root_node (parse file_content)))))
           []).
Proof.
  intros Hws. unfold analyze_python_code.
  rewrite extract_functions_spec, extract_classes_spec, extract_calls_spec by done.
  done.
Qed.

(** ** Ownership of a call *)

(** One turn of the [while] loop: the walk looks at [node.parent] and either
    stops there or goes on from it. *)
Lemma parent_func_unfold (n : Node) :
  parent_func n =
  match parent n with
  | None => None
  | Some p => if is_definition (node_tree p) then Some p else parent_func p
  end.
Proof.
  unfold parent_func, parent. by destruct (node_up n) as [|[i p] up].
Qed.

Lemma climb_stops (pre : list (nat * Tree)) (i : nat) (B : Tree)
  (rest : list (nat * Tree)) :
  Forall (fun step => is_definition step.2 = false) pre ->
  is_definition B = true ->
  climb (pre ++ (i, B) :: rest) = Some (mkNode B rest).
Proof.
  intros Hpre HB. induction Hpre as [|[j t] pre Ht _ IH]; simpl.
  - by rewrite HB.
  - simpl in Ht. by rewrite Ht.
Qed.

Lemma ancestors_from_shorter (up : list (nat * Tree)) (A : Node) :
  A ∈ ancestors_from up -> length (node_up A) < length up.
Proof.
  induction up as [|[i p] up IH]; simpl.
  - by intros ?%elem_of_nil.
  - intros [->|Hin]%elem_of_cons; simpl; [lia|]. specialize (IH Hin). lia.
Qed.

(** ** Results on whole inputs *)

Lemma definitions_have_width_bodies_ok (root : Node) :
  definitions_have_width root = true -> bodies_ok root.
Proof.
  unfold definitions_have_width. intros H.
  apply andb_true_iff in H as [H _]. apply andb_true_iff in H as [H _].
  by apply well_shaped_bodies_ok.
Qed.

Lemma function_in_results (content_bytes : string) (root n nm ps bd : Node) :
  n ∈ descendants root ->
  function_match n = Some (nm, ps, bd) ->
  function_record content_bytes n nm ps bd
  ∈ omap (function_at content_bytes) (descendants root).
Proof.
  intros Hn Hm. apply list_elem_of_omap. exists n. split; [done|].
  unfold function_at. by rewrite Hm.
Qed.

Lemma function_of_result (content_bytes : string) (root : Node) (e : FunctionEntry) :
  e ∈ omap (function_at content_bytes) (descendants root) ->
  exists n nm ps bd,
    n ∈ descendants root /\ function_match n = Some (nm, ps, bd) /\
    e = function_record content_bytes n nm ps bd.
Proof.
  intros (n & Hn & He)%list_elem_of_omap. unfold function_at in He.
  destruct (function_match n) as [[[nm ps] bd]|] eqn:Hm; [|done].
  injection He as <-. by exists n, nm, ps, bd.
Qed.

Lemma omap_nil_iff {A B} (f : A -> option B) (l : list A) :
  omap f l = [] <-> forall x, x ∈ l -> f x = None.
Proof.
  induction l as [|x l IH]; simpl.
  - split; [by intros _ y ?%elem_of_nil|done].
  - destruct (f x) eqn:Hfx.
    + split; [done|]. intros H. specialize (H x ltac:(apply elem_of_cons; by left)).
      congruence.
    + rewrite IH. split.
      * intros H y [->|Hy]%elem_of_cons; [done|by apply H].
      * intros H y Hy. apply H, elem_of_cons. by right.
Qed.

Lemma childless_descendants (root : Node) :
  t_children (node_tree root) = [] -> descendants root = [root].
Proof. intros Hc. by rewrite descendants_unfold, Hc. Qed.

Lemma childless_field_child (n : Node) (f ty : string) :
  t_children (node_tree n) = [] -> field_child n f ty = None.
Proof. intros Hc. unfold field_child, children. by rewrite Hc. Qed.


(** The handle [callee_g] is the one callee the [calls] pattern captures in
    [tree_nested]. *)
Lemma callee_g_is_captured :
  omap callee (descendants (root_node tree_nested)) = [callee_g].
Proof. reflexivity. Qed.

(** The analysis of the three samples, evaluated. *)
Example analyze_src_doc :
  analyze_python_code (fun _ => tree_doc) src_doc
  = inr (mkResults
           [mkFunctionEntry "f" "def f()" "'doc'"
              ("def f():" ++ nl ++ "    'doc'" ++ nl ++ "    g()")%string
              (mkPoint 0 0) (mkPoint 2 7)]
           []
           [mkCallEntry "g" (mkPoint 2 4) (Some "f")]
           []).
Proof. vm_compute. reflexivity. Qed.

Example analyze_src_nested :
  analyze_python_code (fun _ => tree_nested) src_nested
  = inr (mkResults
           [mkFunctionEntry "f" "def f()" ""
              ("def f():" ++ nl ++ "    def f():" ++ nl ++ "        g()")%string
              (mkPoint 0 0) (mkPoint 2 11);
            mkFunctionEntry "f" "def f()" ""
              ("def f():" ++ nl ++ "        g()")%string
              (mkPoint 1 4) (mkPoint 2 11)]
           []
           [mkCallEntry "g" (mkPoint 2 8) (Some "f")]
           []).
Proof. vm_compute. reflexivity. Qed.

Example analyze_src_method :
  analyze_python_code (fun _ => tree_method) src_method = inr empty_results.
Proof. vm_compute. reflexivity. Qed.

(** C7. On the empty text, whose tree is a root without children, the
    analysis returns the result with four empty sequences and does not
    raise. *)
Theorem analyze_empty_text (parse : string -> Tree) :
  t_children (parse "") = [] ->
  analyze_python_code parse "" = inr empty_results.
Proof.
  intros Hc. rewrite analyze_python_code_spec.
  - rewrite childless_descendants by done. simpl.
    unfold function_at, function_match, class_at, class_match, callee.
    rewrite !childless_field_child by done.
    by repeat case_bool_decide.
  - intros n c c0 Hn Hch. rewrite childless_descendants in Hn by done.
    apply list_elem_of_singleton in Hn as ->.
    unfold children in Hch. simpl in Hch. rewrite Hc in Hch.
    by apply elem_of_nil in Hch.
Qed.

(** A parser that answers the empty module. *)
Lemma analyze_empty_text_witness :
  analyze_python_code (fun _ => tree_empty) "" = inr empty_results.
Proof. apply (analyze_empty_text (fun _ => tree_empty)). reflexivity. Defined.

(** C3 (as stated) fails: the text [src_brace] has one unmatched brace and
    its tree holds an [ERROR] node, yet the analysis returns the function
    that precedes the brace instead of an empty result. *)
Lemma malformed_text_counterexample :
  has_error (root_node tree_brace) = true /\
  exists r e,
    analyze_python_code (fun _ => tree_brace) src_brace = inr r /\
    functions r = [e] /\ fn_name e = "f" /\ r <> empty_results.
Proof.
  split; [reflexivity|]. eexists _, _.
  split; [vm_compute; reflexivity|]. by repeat split.
Qed.

(** C3 (as amended). A text that is not well formed is parsed like any
    other: the analysis runs on the tree the parser recovers.  When no
    capture in that tree is zero-width (and no expression statement is
    childless) the analysis raises nothing and returns the records of the
    definitions and calls that the patterns match in the tree, [ERROR]
    nodes or not; the result is empty exactly when no node matches. *)
Theorem analyze_returns_what_the_tree_matches (parse : string -> Tree)
  (file_content : string) :
  definitions_have_width (root_node (parse file_content)) = true ->
  captures_have_width calls_query (root_node (parse file_content)) = true ->
  exists r,
    analyze_python_code parse file_content = inr r /\
    functions r = omap (function_at file_content)
                       (descendants (root_node (parse file_content))) /\
    classes r = omap (class_at file_content)
                     (descendants (root_node (parse file_content))) /\
    calls r = map (call_entry file_content)
                  (omap callee (descendants (root_node (parse file_content)))) /\
    imports r = [] /\
    (r = empty_results <->
     forall n, n ∈ descendants (root_node (parse file_content)) ->
               function_match n = None /\ class_match n = None /\ callee n = None).
Proof.
  intros Hws%definitions_have_width_bodies_ok _. eexists.
  split; [by apply analyze_python_code_spec|]. simpl.
  do 4 (split; [done|]). split.
  - intros [= Hf Hc Hk] n Hn.
    rewrite omap_nil_iff in Hf. rewrite omap_nil_iff in Hc.
    apply map_eq_nil in Hk. rewrite omap_nil_iff in Hk.
    specialize (Hf n Hn). specialize (Hc n Hn). specialize (Hk n Hn).
    unfold function_at in Hf. unfold class_at in Hc.
    destruct (function_match n) as [[[? ?] ?]|]; [done|].
    by destruct (class_match n) as [[? ?]|].
  - intros Hnone. unfold empty_results. f_equal.
    + apply omap_nil_iff. intros n Hn. unfold function_at.
      by destruct (Hnone n Hn) as (-> & _ & _).
    + apply omap_nil_iff. intros n Hn. unfold class_at.
      by destruct (Hnone n Hn) as (_ & -> & _).
    + assert (omap callee (descendants (root_node (parse file_content))) = [])
        as ->; [|done].
      apply omap_nil_iff. intros n Hn. by destruct (Hnone n Hn) as (_ & _ & ->).
Qed.

(** The recovered tree of [src_brace]. *)
Lemma analyze_returns_what_the_tree_matches_witness :
  exists r,
    analyze_python_code (fun _ => tree_brace) src_brace = inr r /\
    functions r = omap (function_at src_brace)
                       (descendants (root_node tree_brace)) /\
    classes r = omap (class_at src_brace) (descendants (root_node tree_brace)) /\
    calls r = map (call_entry src_brace)
                  (omap callee (descendants (root_node tree_brace))) /\
    imports r = [] /\
    (r = empty_results <->
     forall n, n ∈ descendants (root_node tree_brace) ->
               function_match n = None /\ class_match n = None /\ callee n = None).
Proof.
  apply (analyze_returns_what_the_tree_matches (fun _ => tree_brace) src_brace).
  - reflexivity.
  - reflexivity.
Defined.

(** C5 (as stated) fails: for [def f()] the name text is [f] and the
    parameter-list text is [()], but the recorded signature starts with the
    keyword. *)
Lemma signature_counterexample :
  exists r e,
    analyze_python_code (fun _ => tree_doc) src_doc = inr r /\
    functions r = [e] /\
    function_match def_doc = Some (name_doc, params_doc, body_doc) /\
    get_node_text name_doc src_doc = "f" /\
    get_node_text params_doc src_doc = "()" /\
    fn_signature e = "def f()" /\
    fn_signature e
    <> (get_node_text name_doc src_doc ++ get_node_text params_doc src_doc)%string.
Proof.
  eexists _, _. split; [vm_compute; reflexivity|]. by repeat split.
Qed.

(** C5 (as amended). When no capture of a definition is zero-width, every
    extracted function record comes from one matched definition node, and
    its signature is the keyword [def] and a space, then the name text,
    then the parameter-list text, with nothing after it. *)
Theorem signature_is_def_name_params (parse : string -> Tree)
  (file_content : string) :
  definitions_have_width (root_node (parse file_content)) = true ->
  exists r,
    analyze_python_code parse file_content = inr r /\
    forall e, e ∈ functions r ->
      exists n nm ps bd,
        n ∈ descendants (root_node (parse file_content)) /\
        function_match n = Some (nm, ps, bd) /\
        fn_name e = get_node_text nm file_content /\
        fn_signature e
        = ("def " ++ get_node_text nm file_content
                  ++ get_node_text ps file_content)%string.
Proof.
  intros Hws%definitions_have_width_bodies_ok. eexists.
  split; [by apply analyze_python_code_spec|]. simpl.
  intros e (n & nm & ps & bd & Hn & Hm & ->)%function_of_result.
  by exists n, nm, ps, bd.
Qed.

(** The function of [src_doc]. *)
Lemma signature_is_def_name_params_witness :
  exists r,
    analyze_python_code (fun _ => tree_doc) src_doc = inr r /\
    forall e, e ∈ functions r ->
      exists n nm ps bd,
        n ∈ descendants (root_node tree_doc) /\
        function_match n = Some (nm, ps, bd) /\
        fn_name e = get_node_text nm src_doc /\
        fn_signature e
        = ("def " ++ get_node_text nm src_doc ++ get_node_text ps src_doc)%string.
Proof.
  apply (signature_is_def_name_params (fun _ => tree_doc) src_doc). reflexivity.
Defined.






(** ** Nested definitions and captured calls *)

Lemma children_from_up p up i cs c :
  c ∈ children_from p up i cs -> exists j, node_up c = (j, p) :: up.
Proof.
  revert i. induction cs as [|c' cs IH]; intros i; simpl.
  - by intros ?%elem_of_nil.
  - intros [->|Hin]%elem_of_cons; [by exists i|by eapply IH].
Qed.

Lemma children_up (n c : Node) :
  c ∈ children n -> exists j, node_up c = (j, node_tree n) :: node_up n.
Proof. apply children_from_up. Qed.


Lemma function_match_spec (n nm ps bd : Node) :
  function_match n = Some (nm, ps, bd) ->
  type n = "function_definition" /\ nm ∈ children n /\ ps ∈ children n /\
  bd ∈ children n.
Proof.
  unfold function_match. case_bool_decide; [|done].
  destruct (field_child n "name" "identifier") as [a|] eqn:Ha; [|done].
  destruct (field_child n "parameters" "parameters") as [b|] eqn:Hb; [|done].
  destruct (field_child n "body" "block") as [c|] eqn:Hc; [|done].
  intros [= <- <- <-].
  apply field_child_spec in Ha as [? _]. apply field_child_spec in Hb as [? _].
  by apply field_child_spec in Hc as [? _].
Qed.

Lemma callee_spec (m k : Node) :
  callee m = Some k ->
  type m = "call" /\ k ∈ children m /\ field_name k = Some "function" /\
  type k = "identifier".
Proof.
  unfold callee. case_bool_decide; [|done].
  by intros ?%field_child_spec.
Qed.


Lemma find_agree {A} (P Q : A -> bool) (l : list A) :
  (forall x, x ∈ l -> P x = Q x) -> find P l = find Q l.
Proof.
  induction l as [|x l IH]; intros H; simpl; [done|].
  rewrite (H x) by (apply elem_of_cons; by left).
  destruct (Q x); [done|]. apply IH. intros y Hy. apply H, elem_of_cons. by right.
Qed.

(** When the [name] field of a definition holds identifiers only, the
    node [child_by_field_name] finds is the captured name. *)
Lemma name_field_is_capture (B nm : Node) :
  field_child B "name" "identifier" = Some nm ->
  (forall ch, ch ∈ children B -> field_name ch = Some "name" ->
              type ch = "identifier") ->
  child_by_field_name B "name" = Some nm.
Proof.
  unfold field_child, child_by_field_name. intros <- Hname.
  apply find_agree. intros ch Hch.
  destruct (bool_decide (field_name ch = Some "name")) eqn:Hf; simpl; [|done].
  apply bool_decide_eq_true in Hf. symmetry. apply bool_decide_eq_true_2.
  by apply Hname.
Qed.

Lemma function_match_name (n nm ps bd : Node) :
  function_match n = Some (nm, ps, bd) ->
  field_child n "name" "identifier" = Some nm.
Proof.
  unfold function_match. case_bool_decide; [|done].
  destruct (field_child n "name" "identifier") as [a|]; [|done].
  destruct (field_child n "parameters" "parameters") as [b|]; [|done].
  destruct (field_child n "body" "block") as [c|]; [|done].
  by intros [= <- _ _].
Qed.

Lemma calls_of_result (parse : string -> Tree) (file_content : string)
  (r : Results) :
  analyze_python_code parse file_content = inr r ->
  calls r = map (call_entry file_content)
                (omap callee (descendants (root_node (parse file_content)))).
Proof.
  unfold analyze_python_code. intros Hr.
  destruct (extract_functions _ _) as [?|fs]; [done|].
  destruct (extract_classes _ _) as [?|cs]; [done|].
  rewrite extract_calls_spec in Hr. simpl in Hr. by injection Hr as <-.
Qed.



(** C10. A call node whose [function] field holds no identifier (a method
    call, say) contributes no record: the records are those of the bare
    identifier callees, each the child of its own call node, and none of
    them, nor any [@name] capture of the pattern, has that call as parent. *)
Theorem non_identifier_callee_is_not_recorded (parse : string -> Tree)
  (file_content : string) (r : Results) (c : Node) :
  analyze_python_code parse file_content = inr r ->
  c ∈ descendants (root_node (parse file_content)) ->
  type c = "call" ->
  (forall ch, ch ∈ children c -> field_name ch = Some "function" ->
              type ch <> "identifier") ->
  calls r = map (call_entry file_content)
                (omap callee (descendants (root_node (parse file_content)))) /\
  callee c = None /\
  (forall k, k ∈ omap callee (descendants (root_node (parse file_content))) ->
     type k = "identifier" /\ parent k <> Some c /\
     exists m, m ∈ descendants (root_node (parse file_content)) /\
               type m = "call" /\ parent k = Some m) /\
  (forall n, (n, "name") ∈ captures calls_query (root_node (parse file_content)) ->
     parent n <> Some c).
Proof.
  intros Hr Hc Hty Hnone.
  set (root := root_node (parse file_content)) in *.
  assert (forall m k, callee m = Some k -> parent k <> Some c) as Hpar.
  { intros m k (Hm & Hk & Hf & Hid)%callee_spec Hp.
    rewrite (children_parent _ _ Hk) in Hp. injection Hp as ->.
    by apply (Hnone k). }
  split; [|split; [|split]].
  - unfold analyze_python_code in Hr. fold root in Hr.
    destruct (extract_functions file_content root) as [?|fs]; [done|].
    destruct (extract_classes file_content root) as [?|cs]; [done|].
    rewrite extract_calls_spec in Hr. simpl in Hr. by injection Hr as <-.
  - destruct (callee c) as [k|] eqn:Hk; [|done].
    destruct (callee_spec _ _ Hk) as (_ & Hin & Hf & Hid).
    by destruct (Hnone k Hin Hf).
  - intros k (m & Hm & Hk)%list_elem_of_omap.
    destruct (callee_spec _ _ Hk) as (Htm & Hin & Hf & Hid).
    split; [done|]. split; [by eapply Hpar|].
    exists m. split; [done|]. split; [done|]. by apply children_parent.
  - intros n Hcap. unfold captures in Hcap.
    apply list_elem_of_In, in_flat_map in Hcap as (m & Hm & Hcap).
    rewrite match_at_calls in Hcap.
    destruct (callee m) as [k|] eqn:Hk; [|done].
    destruct Hcap as [Heq|[Heq|[]]]; [discriminate|].
    injection Heq as <-. by eapply Hpar.
Qed.

(** The method call of [src_method]. *)
Lemma non_identifier_callee_is_not_recorded_witness :
  calls empty_results
  = map (call_entry src_method)
        (omap callee (descendants (root_node tree_method))) /\
  callee method_node = None /\
  (forall k, k ∈ omap callee (descendants (root_node tree_method)) ->
     type k = "identifier" /\ parent k <> Some method_node /\
     exists m, m ∈ descendants (root_node tree_method) /\
               type m = "call" /\ parent k = Some m) /\
  (forall n, (n, "name") ∈ captures calls_query (root_node tree_method) ->
     parent n <> Some method_node).
Proof.
  apply (non_identifier_callee_is_not_recorded (fun _ => tree_method) src_method).
  - reflexivity.
  - apply list_elem_of_In. vm_compute. tauto.
  - reflexivity.
  - intros ch Hch Hf Hid. apply list_elem_of_In in Hch. vm_compute in Hch.
    destruct Hch as [<-|[<-|[]]]; discriminate.
Defined.


(** ** The recorded owner of a call *)

(** C2. Let the analysis return [r], let B be a matched function
    definition of the tree and let a captured call lie in the body of B
    with no other definition between the two.  Then [r] holds the record
    of that call, and its owner is the name of B: the walk from the call
    stops at B, the first definition above it, and never at any node above
    B, whatever function A encloses B. *)
Theorem owner_is_innermost_definition (parse : string -> Tree)
  (file_content : string) (r : Results) (B nmB psB bdB m c : Node)
  (pre : list (nat * Tree)) :
  analyze_python_code parse file_content = inr r ->
  B ∈ descendants (root_node (parse file_content)) ->
  function_match B = Some (nmB, psB, bdB) ->
  (forall ch, ch ∈ children B -> field_name ch = Some "name" ->
              type ch = "identifier") ->
  m ∈ descendants bdB ->
  callee m = Some c ->
  has_width c = true ->
  node_up c = pre ++ node_up bdB ->
  Forall (fun step => is_definition step.2 = false) pre ->
  mkCallEntry (get_node_text c file_content) (start_point c)
              (Some (get_node_text nmB file_content)) ∈ calls r /\
  parent_func c = Some B /\
  (forall A, A ∈ ancestors B -> parent_func c <> Some A).
Proof.
  intros Hr HB Hm Hname Hmb Hc _ Hup Hpre.
  destruct (function_match_spec _ _ _ _ Hm) as (Hty & _ & _ & Hbd).
  destruct (children_up _ _ Hbd) as (i & Hbdup).
  assert (parent_func c = Some B) as Hpf.
  { unfold parent_func. rewrite Hup, Hbdup.
    rewrite climb_stops; [by rewrite node_eta|done|].
    unfold is_definition. apply bool_decide_eq_true_2.
    change (type B ∈ ["function_definition"; "class_definition"]).
    rewrite Hty. set_solver. }
  split; [|split; [done|]].
  - rewrite (calls_of_result _ _ _ Hr). apply list_elem_of_fmap.
    exists c. split.
    + unfold call_entry, owner_name. rewrite Hpf.
      by rewrite (name_field_is_capture B nmB (function_match_name _ _ _ _ Hm) Hname).
    + apply list_elem_of_omap. exists m. split; [|done].
      eapply descendants_trans; [exact HB|].
      eapply descendants_trans; [by apply children_descendants|done].
  - intros A HA. rewrite Hpf. intros [= <-].
    apply ancestors_from_shorter in HA. lia.
Qed.

(** The call of [g] in [src_ab]: it lies in [b], which lies in [a], and
    its recorded owner is [b]. *)
Lemma owner_is_innermost_definition_witness :
  mkCallEntry (get_node_text callee_g src_ab) (start_point callee_g)
              (Some (get_node_text inner_name src_ab))
  ∈ calls (mkResults
             [mkFunctionEntry "a" "def a()" ""
                ("def a():" ++ nl ++ "    def b():" ++ nl ++ "        g()")%string
                (mkPoint 0 0) (mkPoint 2 11);
              mkFunctionEntry "b" "def b()" ""
                ("def b():" ++ nl ++ "        g()")%string
                (mkPoint 1 4) (mkPoint 2 11)]
             []
             [mkCallEntry "g" (mkPoint 2 8) (Some "b")]
             []) /\
  parent_func callee_g = Some inner_node /\
  (forall A, A ∈ ancestors inner_node -> parent_func callee_g <> Some A).
Proof.
  apply (owner_is_innermost_definition (fun _ => tree_nested) src_ab _
           inner_node inner_name inner_params inner_block call_node_g callee_g
           callee_up).
  - vm_compute. reflexivity.
  - apply list_elem_of_In. vm_compute. tauto.
  - reflexivity.
  - intros ch Hch Hf. apply list_elem_of_In in Hch. vm_compute in Hch.
    destruct Hch as [<-|[<-|[<-|[<-|[<-|[]]]]]]; (reflexivity || discriminate).
  - apply list_elem_of_In. vm_compute. tauto.
  - reflexivity.
  - reflexivity.
  - reflexivity.
  - repeat constructor.
Defined.

(** The records of [src_ab], evaluated: the owner of the call is [b]. *)
Example analyze_src_ab :
  analyze_python_code (fun _ => tree_nested) src_ab
  = inr (mkResults
           [mkFunctionEntry "a" "def a()" ""
              ("def a():" ++ nl ++ "    def b():" ++ nl ++ "        g()")%string
              (mkPoint 0 0) (mkPoint 2 11);
            mkFunctionEntry "b" "def b()" ""
              ("def b():" ++ nl ++ "        g()")%string
              (mkPoint 1 4) (mkPoint 2 11)]
           []
           [mkCallEntry "g" (mkPoint 2 8) (Some "b")]
           []).
Proof. vm_compute. reflexivity. Qed.


(** ** The graph handed to the diagram builder *)

(** Loop invariants: a property of the processed prefix and the state that
    every successful turn extends holds when the loop returns. *)
Lemma for_each_ind {A S} (Q : list A -> S -> Prop) (body : S -> A -> result S) :
  (forall pre x s1 s2, Q pre s1 -> body s1 x = inr s2 -> Q (pre ++ [x]) s2) ->
  forall xs pre s s',
  Q pre s -> for_each body xs s = inr s' -> Q (pre ++ xs) s'.
Proof.
  intros Hstep. induction xs as [|x xs IH]; intros pre s s' HQ; simpl.
  - intros [= <-]. by rewrite app_nil_r.
  - destruct (body s x) as [e|s1] eqn:Hb; simpl; [done|].
    intros Hrest. replace (pre ++ x :: xs) with ((pre ++ [x]) ++ xs)
      by (by rewrite <- app_assoc).
    eapply IH; [|done]. by eapply Hstep.
Qed.

Lemma for_each_total {A S} (body : S -> A -> result S) (xs : list A) :
  Forall (fun x => forall s, exists s', body s x = inr s') xs ->
  forall s, exists s', for_each body xs s = inr s'.
Proof.
  induction 1 as [|x xs Hx _ IH]; intros s; simpl; [by eexists|].
  destruct (Hx s) as [s1 ->]. simpl. apply IH.
Qed.

Lemma dict_get_inr (d : gmap string string) (key v : string) :
  dict_get d key = inr v <-> d !! key = Some v.
Proof.
  unfold dict_get. destruct (d !! key); simpl; split; intros H;
    by (injection H as -> || discriminate).
Qed.

Lemma explicit_ids_snoc (pre : list (gmap string string)) n i :
  n !! "id" = Some i -> explicit_ids (pre ++ [n]) = explicit_ids pre ++ [i].
Proof. intros Hi. unfold explicit_ids. rewrite omap_app. simpl. by rewrite Hi. Qed.

Lemma add_node_lookup (G : DiGraph) (n l x : string) :
  is_Some (g_node (add_node G n l) !! x) <-> x = n \/ is_Some (g_node G !! x).
Proof.
  unfold add_node; simpl. rewrite lookup_insert_is_Some. split.
  - intros [->|[_ H]]; auto.
  - intros [->|H]; [by left|]. destruct (decide (n = x)); [by left|by right].
Qed.

(** After the loop over [nodes]: the nodes of the graph are the explicit
    ids, and there is no edge yet. *)
Lemma explicit_nodes_spec (nodes : list (gmap string string)) (G : DiGraph) :
  for_each add_explicit_node nodes empty_graph = inr G ->
  g_adj G = ∅ /\
  (forall x, is_Some (g_node G !! x) <-> x ∈ explicit_ids nodes).
Proof.
  intros HG.
  apply (for_each_ind
           (fun pre G => g_adj G = ∅ /\
              forall x, is_Some (g_node G !! x) <-> x ∈ explicit_ids pre)
           add_explicit_node) with (pre := []) in HG; [done|..].
  - intros pre n G1 G2 [Hadj Hdom]. unfold add_explicit_node.
    destruct (dict_get n "id") as [?|i] eqn:Hi; simpl; [done|].
    destruct (dict_get n "label") as [?|l] eqn:Hl; simpl; [done|].
    intros [= <-]. apply dict_get_inr in Hi.
    split; [done|]. intros x.
    rewrite add_node_lookup, (explicit_ids_snoc _ _ _ Hi), elem_of_app, Hdom.
    rewrite list_elem_of_singleton. tauto.
  - split; [done|]. intros x. simpl. rewrite lookup_empty.
    split; [by intros [? ?]|by intros ?%elem_of_nil].
Qed.

(** What [ensure_node] returns: the graph itself when the endpoint is a
    node, the graph with the endpoint added under its own id as label
    otherwise. *)
Lemma ensure_node_spec (G G' : DiGraph) (e : gmap string string) (key : string) :
  ensure_node G e key = inr G' ->
  exists x, e !! key = Some x /\
            G' = if has_node G x then G else add_node G x x.
Proof.
  unfold ensure_node.
  destruct (dict_get e key) as [?|x] eqn:Hx; simpl; [done|].
  apply dict_get_inr in Hx. intros HG'. exists x. split; [done|].
  unfold ret in HG'. destruct (has_node G x); congruence.
Qed.

Lemma ensure_node_facts (G : DiGraph) (x : string) :
  let G' := if has_node G x then G else add_node G x x in
  g_adj G' = g_adj G /\
  is_Some (g_node G' !! x) /\
  (forall y, is_Some (g_node G !! y) -> g_node G' !! y = g_node G !! y) /\
  (forall y, g_node G !! y = None ->
             g_node G' !! y = None \/ g_node G' !! y = Some {[ "label" := y ]}).
Proof.
  unfold has_node. case_bool_decide as Hx; simpl.
  - split; [done|]. split; [done|]. split; [done|]. by left.
  - split; [done|]. split; [by rewrite lookup_insert_eq|]. split.
    + intros y Hy. rewrite lookup_insert_ne; [done|]. by intros ->.
    + intros y Hy. destruct (decide (x = y)) as [->|Hne].
      * right. rewrite lookup_insert_eq, Hy. simpl. by rewrite insert_empty.
      * left. by rewrite lookup_insert_ne.
Qed.

Lemma add_edge_present (G : DiGraph) (u v : string) :
  is_Some (g_node G !! u) -> is_Some (g_node G !! v) ->
  add_edge G u v = mkDiGraph (g_node G) (g_adj G ∪ {[ (u, v) ]}).
Proof.
  intros [a Hu] [b Hv]. unfold add_edge. by rewrite Hu, Hv.
Qed.

(** After the loop over [edges]: explicit nodes are kept, any other node is
    absent or labelled with its own id, every endpoint seen is a node, and
    the edges are those of the input. *)
Lemma input_edges_spec (ids : list string) (edges : list (gmap string string))
  (G0 G : DiGraph) :
  g_adj G0 = ∅ ->
  (forall x, is_Some (g_node G0 !! x) <-> x ∈ ids) ->
  for_each add_input_edge edges G0 = inr G ->
  (forall x, x ∈ ids -> is_Some (g_node G !! x)) /\
  (forall x, x ∉ ids ->
     g_node G !! x = None \/ g_node G !! x = Some {[ "label" := x ]}) /\
  (forall e x, e ∈ edges -> is_endpoint x e -> is_Some (g_node G !! x)) /\
  (forall u v, (u, v) ∈ g_adj G <->
     exists e, e ∈ edges /\ e !! "from" = Some u /\ e !! "to" = Some v).
Proof.
  intros Hadj Hdom HG.
  apply (for_each_ind
           (fun pre G =>
              (forall x, x ∈ ids -> is_Some (g_node G !! x)) /\
              (forall x, x ∉ ids ->
                 g_node G !! x = None \/ g_node G !! x = Some {[ "label" := x ]}) /\
              (forall e x, e ∈ pre -> is_endpoint x e -> is_Some (g_node G !! x)) /\
              (forall u v, (u, v) ∈ g_adj G <->
                 exists e, e ∈ pre /\ e !! "from" = Some u /\ e !! "to" = Some v))
           add_input_edge) with (pre := []) in HG; [done|..].
  - clear. intros pre e G G3 (Hids & Hother & Hends & Hedges).
    unfold add_input_edge.
    destruct (ensure_node G e "from") as [?|G1] eqn:H1; simpl; [done|].
    destruct (ensure_node G1 e "to") as [?|G2] eqn:H2; simpl; [done|].
    apply ensure_node_spec in H1 as (u & Hu & ->).
    apply ensure_node_spec in H2 as (v & Hv & ->).
    unfold dict_get. rewrite Hu, Hv. simpl.
    destruct (ensure_node_facts G u) as (Ha1 & Hu1 & Hk1 & Hn1).
    set (G1 := if has_node G u then G else add_node G u u) in *.
    destruct (ensure_node_facts G1 v) as (Ha2 & Hv2 & Hk2 & Hn2).
    set (G2 := if has_node G1 v then G1 else add_node G1 v v) in *.
    assert (forall y, is_Some (g_node G !! y) -> g_node G2 !! y = g_node G !! y)
      as Hkeep.
    { intros y Hy. rewrite Hk2; rewrite Hk1; done. }
    assert (is_Some (g_node G2 !! u)) as Hu2 by (by rewrite Hk2).
    rewrite add_edge_present by done. intros [= <-]. simpl.
    split; [|split; [|split]].
    + intros x Hx. rewrite Hkeep; auto.
    + intros x Hx. destruct (g_node G !! x) as [a|] eqn:Hgx.
      * rewrite Hkeep by (by rewrite Hgx). rewrite Hgx.
        destruct (Hother x Hx) as [?|?]; [congruence|]. right. congruence.
      * destruct (Hn1 x Hgx) as [Hx1|Hx1].
        -- apply Hn2 in Hx1. done.
        -- right. rewrite Hk2; by rewrite Hx1.
    + intros e' x [He'|Heq%list_elem_of_singleton]%elem_of_app Hend.
      * rewrite Hkeep; eauto.
      * subst e'. destruct Hend as [Hx|Hx]; congruence.
    + intros a b. rewrite elem_of_union, elem_of_singleton, Ha2, Ha1, Hedges.
      split.
      * intros [(e' & He' & Hf & Ht)|Heq].
        -- exists e'. split; [apply elem_of_app; by left|done].
        -- injection Heq as Ha Hb. subst a b. exists e. split; [apply elem_of_app; right; by apply list_elem_of_singleton|done].
      * intros (e' & [He'|Heq%list_elem_of_singleton]%elem_of_app & Hf & Ht).
        -- left. by exists e'.
        -- subst e'. right. congruence.
  - split; [by intros x ?%Hdom|]. split.
    + intros x Hx. left. destruct (g_node G0 !! x) eqn:Hgx; [|done].
      exfalso. apply Hx, Hdom. by rewrite Hgx.
    + split; [by intros e x ?%elem_of_nil|].
      intros u v. rewrite Hadj. split; [by intros ?%elem_of_empty|].
      by intros (e & ?%elem_of_nil & _).
Qed.

(** The graph handed to the builder has every input edge and no other,
    each edge's endpoints are nodes of it, the declared ids are nodes of
    it, and an endpoint that is not a declared id is a node labelled with
    the id itself. *)
Theorem assembled_graph_has_no_dangling_edge (nodes edges : list (gmap string string))
  (G : DiGraph) :
  assemble_graph nodes edges = inr G ->
  (forall u v, (u, v) ∈ g_adj G ->
     is_Some (g_node G !! u) /\ is_Some (g_node G !! v)) /\
  (forall u v, (u, v) ∈ g_adj G <->
     exists e, e ∈ edges /\ e !! "from" = Some u /\ e !! "to" = Some v) /\
  (forall x, x ∈ explicit_ids nodes -> is_Some (g_node G !! x)) /\
  (forall e x, e ∈ edges -> is_endpoint x e -> x ∉ explicit_ids nodes ->
     g_node G !! x = Some {[ "label" := x ]}).
Proof.
  intros HG. unfold assemble_graph in HG.
  destruct (for_each add_explicit_node nodes empty_graph) as [?|G0] eqn:H0;
    simpl in HG; [done|].
  apply explicit_nodes_spec in H0 as [Hadj Hdom].
  destruct (input_edges_spec _ _ _ _ Hadj Hdom HG)
    as (Hids & Hother & Hends & Hedges).
  split; [|split; [done|split; [done|]]].
  - intros u v (e & He & Hu & Hv)%Hedges.
    split; apply (Hends e); auto; [by left|by right].
  - intros e x He Hend Hx. destruct (Hother x Hx) as [Hnone|Hsome]; [|done].
    destruct (Hends e x He Hend) as [a Ha]. congruence.
Qed.

(** Explicit node [A] and the edge [A -> B]: the graph has the nodes [A]
    and [B], the second labelled [B], and the one edge. *)
Lemma assembled_graph_has_no_dangling_edge_witness :
  let nodes : list (gmap string string) := [ {[ "id" := "A"; "label" := "A" ]} ] in
  let edges : list (gmap string string) := [ {[ "from" := "A"; "to" := "B" ]} ] in
  let G := mkDiGraph {[ "A" := {[ "label" := "A" ]}; "B" := {[ "label" := "B" ]} ]}
                     {[ ("A", "B") ]} in
  (forall u v, (u, v) ∈ g_adj G ->
     is_Some (g_node G !! u) /\ is_Some (g_node G !! v)) /\
  (forall u v, (u, v) ∈ g_adj G <->
     exists e, e ∈ edges /\ e !! "from" = Some u /\ e !! "to" = Some v) /\
  (forall x, x ∈ explicit_ids nodes -> is_Some (g_node G !! x)) /\
  (forall e x, e ∈ edges -> is_endpoint x e -> x ∉ explicit_ids nodes ->
     g_node G !! x = Some {[ "label" := x ]}).
Proof.
  intros nodes edges G.
  apply (assembled_graph_has_no_dangling_edge nodes edges G).
  vm_compute. reflexivity.
Defined.

Lemma try_body_raises (build_with : string -> DiGraph -> result string)
  (G : DiGraph) :
  try_body build_with G = inl (AttributeError "TOP_BOTTOM").
Proof. reflexivity. Qed.

(** C4 (the code on the input of the claim). With explicit node [A] and
    the edge [A -> B] the graph is assembled with both nodes and the one
    edge, but the text returned is empty: the orientation named in the
    [try] body is not a member of the library's enumeration, the lookup
    raises, and the [except] branch returns the empty string before any
    diagram is built. *)
Theorem sample_diagram_is_empty (build_with : string -> DiGraph -> result string) :
  assemble_graph [ {[ "id" := "A"; "label" := "A" ]} ]
                 [ {[ "from" := "A"; "to" := "B" ]} ]
  = inr (mkDiGraph {[ "A" := {[ "label" := "A" ]}; "B" := {[ "label" := "B" ]} ]}
                   {[ ("A", "B") ]}) /\
  create_mermaid_chart true (try_body build_with)
    [ {[ "id" := "A"; "label" := "A" ]} ] [ {[ "from" := "A"; "to" := "B" ]} ]
  = inr "".
Proof.
  assert (assemble_graph [ {[ "id" := "A"; "label" := "A" ]} ]
                         [ {[ "from" := "A"; "to" := "B" ]} ]
          = inr (mkDiGraph {[ "A" := {[ "label" := "A" ]};
                              "B" := {[ "label" := "B" ]} ]}
                           {[ ("A", "B") ]})) as HG
    by (vm_compute; reflexivity).
  split; [exact HG|].
  unfold create_mermaid_chart. cbn [negb]. rewrite HG. cbn [bind].
  by rewrite try_body_raises.
Qed.

(** C8 (as stated) fails: a node dict without [label] makes the function
    raise [KeyError] to its caller; the builder is never asked. *)
Lemma missing_key_counterexample :
  create_mermaid_chart true (fun _ => inr "graph TD") [ {[ "id" := "A" ]} ] []
  = inl (KeyError "label").
Proof. vm_compute. reflexivity. Qed.

(** C8 (as amended). On input dicts that carry their keys the graph is
    assembled and the function returns a text, never an exception; when
    the builder raises on that graph, the text returned is the empty one. *)
Theorem builder_failure_gives_empty_text (libs_loaded : bool)
  (build : DiGraph -> result string) (nodes edges : list (gmap string string)) :
  Forall node_dict_ok nodes ->
  Forall edge_dict_ok edges ->
  exists G,
    assemble_graph nodes edges = inr G /\
    (exists text, create_mermaid_chart libs_loaded build nodes edges = inr text) /\
    (forall err, build G = inl err ->
       create_mermaid_chart libs_loaded build nodes edges = inr "").
Proof.
  intros Hnodes Hedges.
  assert (exists G, assemble_graph nodes edges = inr G) as [G HG].
  { unfold assemble_graph.
    destruct (for_each_total add_explicit_node nodes) with (s := empty_graph)
      as [G0 ->].
    { eapply Forall_impl; [exact Hnodes|]. intros n [[i Hi] [l Hl]] s.
      unfold add_explicit_node, dict_get. rewrite Hi, Hl. by eexists. }
    simpl. apply for_each_total.
    eapply Forall_impl; [exact Hedges|]. intros e [[u Hu] [v Hv]] s.
    unfold add_input_edge, ensure_node, dict_get. rewrite Hu, Hv. simpl.
    destruct (has_node s u); simpl; destruct (has_node _ v); simpl; by eexists. }
  exists G. split; [done|]. unfold create_mermaid_chart.
  destruct libs_loaded; simpl; [|split; [by eexists|done]].
  destruct nodes as [|n nodes]; [split; [by eexists|done]|].
  rewrite HG. simpl. split.
  - destruct (build G); by eexists.
  - by intros err ->.
Qed.

(** The instance with one node, one edge to an undeclared node and a
    builder that always raises. *)
Lemma builder_failure_gives_empty_text_witness :
  let build : DiGraph -> result string := fun _ => inl (BackendError "render") in
  let nodes : list (gmap string string) := [ {[ "id" := "A"; "label" := "A" ]} ] in
  let edges : list (gmap string string) := [ {[ "from" := "A"; "to" := "B" ]} ] in
  exists G,
    assemble_graph nodes edges = inr G /\
    (exists text, create_mermaid_chart true build nodes edges = inr text) /\
    (forall err, build G = inl err ->
       create_mermaid_chart true build nodes edges = inr "").
Proof.
  intros build nodes edges.
  apply (builder_failure_gives_empty_text true build nodes edges).
  - repeat constructor; by eexists.
  - repeat constructor; by eexists.
Defined.

(** C9. With an empty node list the function returns the empty string and
    does not raise, whatever the edge list, the builder and the loaded
    libraries. *)
Theorem empty_node_list_gives_empty_text (libs_loaded : bool)
  (build : DiGraph -> result string) (edges : list (gmap string string)) :
  create_mermaid_chart libs_loaded build [] edges = inr "".
Proof. by destruct libs_loaded. Qed.


(** ** Further properties of the analyser *)

(** A call with no function or class definition above it has no owner:
    the walk runs out of parents and [owner_function] is [None]. *)
Theorem top_level_call_has_no_owner (content_bytes : string) (c : Node) :
  Forall (fun step => is_definition step.2 = false) (node_up c) ->
  parent_func c = None /\ owner_function (call_entry content_bytes c) = None.
Proof.
  intros Hup.
  assert (parent_func c = None) as Hpf.
  { unfold parent_func. induction Hup as [|[i t] up Ht _ IH]; simpl; [done|].
    simpl in Ht. by rewrite Ht. }
  split; [done|]. unfold call_entry, owner_name. simpl. by rewrite Hpf.
Qed.

(** The method call of [src_method] sits at module level. *)
Lemma top_level_call_has_no_owner_witness :
  parent_func method_node = None /\
  owner_function (call_entry src_method method_node) = None.
Proof.
  apply (top_level_call_has_no_owner src_method method_node).
  repeat constructor.
Defined.

(** The import patterns are never run: whenever the analysis returns, its
    [imports] list is empty. *)
Theorem imports_are_never_extracted (parse : string -> Tree) (file_content : string) :
  match analyze_python_code parse file_content with
  | inr r => imports r = []
  | inl _ => True
  end.
Proof.
  unfold analyze_python_code.
  destruct (extract_functions _ _); cbn [bind]; [done|].
  destruct (extract_classes _ _); cbn [bind]; [done|].
  by rewrite extract_calls_spec.
Qed.

(** An entry of [func_nodes] without a [name] capture is skipped by the
    second loop: nothing is appended and nothing raises. *)
Theorem entry_without_name_is_skipped {E} (entry : gmap string Node -> result E)
  (acc : list E) (data : gmap string Node) :
  data !! "name" = None -> append_entry entry acc data = inr acc.
Proof. intros Hnone. unfold append_entry. by rewrite Hnone. Qed.

(** An entry that holds only its definition node. *)
Lemma entry_without_name_is_skipped_witness :
  append_entry (function_entry src_doc) [] {[ "def_node" := def_doc ]} = inr [].
Proof.
  apply (entry_without_name_is_skipped (function_entry src_doc) []
           {[ "def_node" := def_doc ]}).
  reflexivity.
Defined.


(** ** Node text *)

Lemma substring_length (s : string) : forall n m,
  String.length (substring n m s) = Nat.min m (String.length s - n).
Proof.
  induction s as [|c s IH]; intros n m.
  - destruct n, m; simpl; lia.
  - destruct n as [|n]; simpl.
    + destruct m as [|m]; simpl; [done|]. rewrite IH. lia.
    + rewrite IH. done.
Qed.

Lemma substring_zero_length (s : string) (n : nat) : substring n 0 s = "".
Proof.
  revert n. induction s as [|c s IH]; intros [|n]; simpl; auto.
Qed.

Lemma substring_substring (s : string) : forall a m i k,
  i + k <= m ->
  substring i k (substring a m s) = substring (a + i) k s.
Proof.
  induction s as [|c s IH]; intros a m i k Hle.
  - destruct a, m; simpl; destruct i, k; done.
  - destruct a as [|a]; simpl.
    + destruct m as [|m]; simpl.
      * assert (i = 0) as -> by lia. assert (k = 0) as -> by lia. done.
      * destruct i as [|i]; simpl.
        -- destruct k as [|k]; [done|]. f_equal.
           rewrite (IH 0 m 0 k) by lia. done.
        -- rewrite (IH 0 m i k) by lia. done.
    + apply IH. done.
Qed.

Lemma substring_ascii (s : string) : forall n m,
  is_ascii_text s = true -> is_ascii_text (substring n m s) = true.
Proof.
  induction s as [|c s IH]; intros n m Hs.
  - by destruct n, m.
  - simpl in Hs. apply andb_true_iff in Hs as [Hc Hs].
    destruct n as [|n]; simpl; [|by apply IH].
    destruct m as [|m]; simpl; [done|]. rewrite Hc. simpl. by apply IH.
Qed.

(** On ASCII content, where a byte is a character and decoding changes
    nothing, the text of a node is the slice
    [content_bytes[start_byte:end_byte]] with Python's clamping: it is
    ASCII again, its length is the part of the span that lies inside the
    content, and it is empty when the span is empty, reversed or starts
    past the end. *)
Theorem get_node_text_length (node : Node) (content_bytes : string) :
  is_ascii_text content_bytes = true ->
  is_ascii_text (get_node_text node content_bytes) = true /\
  String.length (get_node_text node content_bytes)
  = Nat.min (end_byte node) (String.length content_bytes)
    - Nat.min (start_byte node) (String.length content_bytes).
Proof.
  intros Hascii. unfold get_node_text. split; [by apply substring_ascii|].
  rewrite substring_length. lia.
Qed.

(** The definition of [f] in [src_doc]. *)
Lemma get_node_text_length_witness :
  is_ascii_text (get_node_text def_doc src_doc) = true /\
  String.length (get_node_text def_doc src_doc)
  = Nat.min (end_byte def_doc) (String.length src_doc)
    - Nat.min (start_byte def_doc) (String.length src_doc).
Proof.
  apply (get_node_text_length def_doc src_doc). reflexivity.
Defined.

Lemma get_node_text_slice (outer inner : Node) (content_bytes : string) :
  start_byte outer <= start_byte inner ->
  start_byte inner <= end_byte inner ->
  end_byte inner <= end_byte outer ->
  get_node_text inner content_bytes
  = substring (start_byte inner - start_byte outer)
              (end_byte inner - start_byte inner)
              (get_node_text outer content_bytes).
Proof.
  intros H1 H2 H3. unfold get_node_text.
  rewrite substring_substring by lia. f_equal. lia.
Qed.

(** On ASCII content and a tree where no capture of a definition is
    zero-width: when the span of the name lies inside the span of the
    definition, the recorded name is the slice of the recorded code body at
    the offset between the two start bytes. *)
Theorem function_name_lies_in_code_body (parse : string -> Tree)
  (file_content : string) (n nm ps bd : Node) :
  is_ascii_text file_content = true ->
  definitions_have_width (root_node (parse file_content)) = true ->
  n ∈ descendants (root_node (parse file_content)) ->
  function_match n = Some (nm, ps, bd) ->
  start_byte n <= start_byte nm ->
  start_byte nm <= end_byte nm ->
  end_byte nm <= end_byte n ->
  exists r e,
    analyze_python_code parse file_content = inr r /\
    e ∈ functions r /\
    fn_start_line e = start_point n /\
    is_ascii_text (fn_code_body e) = true /\
    fn_name e = substring (start_byte nm - start_byte n)
                          (end_byte nm - start_byte nm)
                          (fn_code_body e).
Proof.
  intros Hascii Hws%definitions_have_width_bodies_ok Hn Hm H1 H2 H3.
  eexists _, (function_record file_content n nm ps bd).
  split; [by apply analyze_python_code_spec|].
  split; [by apply function_in_results|].
  split; [done|]. simpl. split; [by apply substring_ascii|].
  by apply get_node_text_slice.
Qed.

(** The name [f] inside the definition of [f] in [src_doc]. *)
Lemma function_name_lies_in_code_body_witness :
  exists r e,
    analyze_python_code (fun _ => tree_doc) src_doc = inr r /\
    e ∈ functions r /\
    fn_start_line e = start_point def_doc /\
    is_ascii_text (fn_code_body e) = true /\
    fn_name e = substring (start_byte name_doc - start_byte def_doc)
                          (end_byte name_doc - start_byte name_doc)
                          (fn_code_body e).
Proof.
  apply (function_name_lies_in_code_body (fun _ => tree_doc) src_doc
           def_doc name_doc params_doc body_doc).
  - reflexivity.
  - reflexivity.
  - apply children_descendants, list_elem_of_In. vm_compute. by left.
  - reflexivity.
  - vm_compute. lia.
  - vm_compute. lia.
  - vm_compute. lia.
Defined.


(** ** Classes, order and the unguarded index *)

Lemma class_of_result (content_bytes : string) (root : Node) (e : ClassEntry) :
  e ∈ omap (class_at content_bytes) (descendants root) ->
  exists n nm bd,
    n ∈ descendants root /\ class_match n = Some (nm, bd) /\
    e = class_record content_bytes n nm bd.
Proof.
  intros (n & Hn & He)%list_elem_of_omap. unfold class_at in He.
  destruct (class_match n) as [[nm bd]|] eqn:Hm; [|done].
  injection He as <-. by exists n, nm, bd.
Qed.

Lemma class_match_spec (n nm bd : Node) :
  class_match n = Some (nm, bd) ->
  type n = "class_definition" /\ nm ∈ children n /\ bd ∈ children n.
Proof.
  unfold class_match. case_bool_decide; [|done].
  destruct (field_child n "name" "identifier") as [a|] eqn:Ha; [|done].
  destruct (field_child n "body" "block") as [c|] eqn:Hc; [|done].
  intros [= <- <-].
  apply field_child_spec in Ha as [? _]. by apply field_child_spec in Hc as [? _].
Qed.

(** The class loop, on a tree where no capture of a definition is
    zero-width: the class records are exactly those of the matched class
    definitions.  Each record carries the text of the name node, the text
    and the two end points of the definition node, and the docstring
    [get_docstring] finds in the body; it has no signature. *)
Theorem class_records_come_from_class_nodes (parse : string -> Tree)
  (file_content : string) :
  definitions_have_width (root_node (parse file_content)) = true ->
  exists r,
    analyze_python_code parse file_content = inr r /\
    (forall e, e ∈ classes r ->
       exists n nm bd,
         n ∈ descendants (root_node (parse file_content)) /\
         class_match n = Some (nm, bd) /\
         cl_name e = get_node_text nm file_content /\
         get_docstring bd file_content = inr (cl_docstring e) /\
         cl_code_body e = get_node_text n file_content /\
         cl_start_line e = start_point n /\ cl_end_line e = end_point n) /\
    (forall n nm bd,
       n ∈ descendants (root_node (parse file_content)) ->
       class_match n = Some (nm, bd) ->
       exists e, e ∈ classes r /\
                 cl_name e = get_node_text nm file_content /\
                 cl_code_body e = get_node_text n file_content).
Proof.
  intros Hws%definitions_have_width_bodies_ok. eexists.
  split; [by apply analyze_python_code_spec|]. simpl. split.
  - intros e (n & nm & bd & Hn & Hm & ->)%class_of_result.
    exists n, nm, bd. do 3 (split; [done|]). split; [|done]. simpl.
    apply get_docstring_ok. intros c0 Hc0.
    destruct (class_match_spec _ _ _ Hm) as (_ & _ & Hbd). by eapply Hws.
  - intros n nm bd Hn Hm. exists (class_record file_content n nm bd).
    split; [|done]. apply list_elem_of_omap. exists n. split; [done|].
    unfold class_at. by rewrite Hm.
Qed.

(** The class [K] of [src_class]. *)
Lemma class_records_come_from_class_nodes_witness :
  exists r,
    analyze_python_code (fun _ => tree_class) src_class = inr r /\
    (forall e, e ∈ classes r ->
       exists n nm bd,
         n ∈ descendants (root_node tree_class) /\
         class_match n = Some (nm, bd) /\
         cl_name e = get_node_text nm src_class /\
         get_docstring bd src_class = inr (cl_docstring e) /\
         cl_code_body e = get_node_text n src_class /\
         cl_start_line e = start_point n /\ cl_end_line e = end_point n) /\
    (forall n nm bd,
       n ∈ descendants (root_node tree_class) ->
       class_match n = Some (nm, bd) ->
       exists e, e ∈ classes r /\
                 cl_name e = get_node_text nm src_class /\
                 cl_code_body e = get_node_text n src_class).
Proof.
  apply (class_records_come_from_class_nodes (fun _ => tree_class) src_class).
  reflexivity.
Defined.

Example analyze_src_class :
  analyze_python_code (fun _ => tree_class) src_class
  = inr (mkResults
           []
           [mkClassEntry "K" "'doc'"
              ("class K:" ++ nl ++ "    'doc'" ++ nl ++ "    g()")%string
              (mkPoint 0 0) (mkPoint 2 7)]
           [mkCallEntry "g" (mkPoint 2 4) (Some "K")]
           []).
Proof. vm_compute. reflexivity. Qed.

Lemma omap_map_filter {A B C} (f : A -> option B) (g : B -> C) (h : A -> C)
  (l : list A) :
  (forall a b, f a = Some b -> g b = h a) ->
  map g (omap f l) = map h (List.filter (fun a => bool_decide (is_Some (f a))) l).
Proof.
  intros Hgh. induction l as [|a l IH]; simpl; [done|].
  destruct (f a) as [b|] eqn:Hfa; simpl.
  - f_equal; [by apply Hgh|exact IH].
  - exact IH.
Qed.

(** One record per match, in document order, on a tree where no capture
    of a definition is zero-width: the start points of the function
    records, of the class records and of the call records are the start
    points of the matching definition nodes and callee identifiers in the
    order the tree is traversed, so no match is lost, doubled or moved. *)
Theorem records_follow_document_order (parse : string -> Tree)
  (file_content : string) :
  definitions_have_width (root_node (parse file_content)) = true ->
  exists r,
    analyze_python_code parse file_content = inr r /\
    map fn_start_line (functions r)
    = map start_point
          (List.filter (fun n => bool_decide (is_Some (function_match n)))
                       (descendants (root_node (parse file_content)))) /\
    map cl_start_line (classes r)
    = map start_point
          (List.filter (fun n => bool_decide (is_Some (class_match n)))
                       (descendants (root_node (parse file_content)))) /\
    map line_number (calls r)
    = map start_point (omap callee (descendants (root_node (parse file_content)))).
Proof.
  intros Hws%definitions_have_width_bodies_ok. eexists.
  split; [by apply analyze_python_code_spec|]. simpl.
  split; [|split].
  - rewrite (omap_map_filter (function_at file_content) fn_start_line start_point).
    + f_equal. apply filter_ext. intros n. unfold function_at.
      by destruct (function_match n) as [[[? ?] ?]|].
    + intros n e. unfold function_at.
      destruct (function_match n) as [[[? ?] ?]|]; [|done]. by intros [= <-].
  - rewrite (omap_map_filter (class_at file_content) cl_start_line start_point).
    + f_equal. apply filter_ext. intros n. unfold class_at.
      by destruct (class_match n) as [[? ?]|].
    + intros n e. unfold class_at.
      destruct (class_match n) as [[? ?]|]; [|done]. by intros [= <-].
  - by rewrite map_map.
Qed.

(** The two definitions of [src_nested], outer first. *)
Lemma records_follow_document_order_witness :
  exists r,
    analyze_python_code (fun _ => tree_nested) src_nested = inr r /\
    map fn_start_line (functions r)
    = map start_point
          (List.filter (fun n => bool_decide (is_Some (function_match n)))
                       (descendants (root_node tree_nested))) /\
    map cl_start_line (classes r)
    = map start_point
          (List.filter (fun n => bool_decide (is_Some (class_match n)))
                       (descendants (root_node tree_nested))) /\
    map line_number (calls r)
    = map start_point (omap callee (descendants (root_node tree_nested))).
Proof.
  apply (records_follow_document_order (fun _ => tree_nested) src_nested).
  reflexivity.
Defined.


(** ** More on the assembled graph *)

Lemma for_each_raises {A S} (body : S -> A -> result S) (pre post : list A)
  (x : A) (s s1 : S) (e : exn) :
  for_each body pre s = inr s1 -> body s1 x = inl e ->
  for_each body (pre ++ x :: post) s = inl e.
Proof.
  intros Hpre Hx. rewrite for_each_app, Hpre. simpl. by rewrite Hx.
Qed.

Lemma explicit_nodes_total (nodes : list (gmap string string)) (G : DiGraph) :
  Forall node_dict_ok nodes ->
  exists G', for_each add_explicit_node nodes G = inr G'.
Proof.
  intros Hnodes. apply for_each_total.
  eapply Forall_impl; [exact Hnodes|]. intros n [[i Hi] [l Hl]] s.
  unfold add_explicit_node, dict_get. rewrite Hi, Hl. by eexists.
Qed.

Lemma input_edges_total (edges : list (gmap string string)) (G : DiGraph) :
  Forall edge_dict_ok edges ->
  exists G', for_each add_input_edge edges G = inr G'.
Proof.
  intros Hedges. apply for_each_total.
  eapply Forall_impl; [exact Hedges|]. intros e [[u Hu] [v Hv]] s.
  unfold add_input_edge, ensure_node, dict_get. rewrite Hu, Hv. simpl.
  destruct (has_node s u); simpl; destruct (has_node _ v); simpl; by eexists.
Qed.

(** The [try] does not cover the assembly of the graph.  With the
    libraries loaded, the first node dict that lacks a key makes the
    function raise [KeyError] for that key ([id] before [label]); the
    builder is not reached and the edges are not read. *)
Theorem missing_node_key_raises (build : DiGraph -> result string)
  (pre post edges : list (gmap string string)) (n : gmap string string) :
  Forall node_dict_ok pre ->
  n !! "id" = None \/ n !! "label" = None ->
  create_mermaid_chart true build (pre ++ n :: post) edges
  = inl (KeyError (match n !! "id" with Some _ => "label" | None => "id" end)).
Proof.
  intros Hpre Hn. unfold create_mermaid_chart. simpl.
  destruct (pre ++ n :: post) as [|n0 rest] eqn:Hnodes;
    [by destruct pre|]. rewrite <- Hnodes. clear Hnodes.
  destruct (explicit_nodes_total pre empty_graph Hpre) as [G1 HG1].
  unfold assemble_graph.
  rewrite (for_each_raises _ pre post n empty_graph G1
             (KeyError (match n !! "id" with Some _ => "label" | None => "id" end))); [done..|].
  unfold add_explicit_node, dict_get.
  destruct (n !! "id") as [i|]; simpl; [|done].
  destruct Hn as [Hn|Hn]; [done|]. by rewrite Hn.
Qed.

(** A first node dict without [label]. *)
Lemma missing_node_key_raises_witness :
  create_mermaid_chart true (fun _ => inr "graph TD")
    ([] ++ {[ "id" := "A" ]} :: []) []
  = inl (KeyError (match ({[ "id" := "A" ]} : gmap string string) !! "id" with
                   | Some _ => "label"
                   | None => "id"
                   end)).
Proof.
  apply (missing_node_key_raises (fun _ => inr "graph TD") [] [] []
           {[ "id" := "A" ]}).
  - constructor.
  - right. reflexivity.
Defined.

(** Likewise for the edges: with complete node dicts and the libraries
    loaded, the first edge dict that lacks a key makes the function raise
    [KeyError] for that key ([from] before [to]) instead of returning. *)
Theorem missing_edge_key_raises (build : DiGraph -> result string)
  (nodes pre post : list (gmap string string)) (e : gmap string string) :
  nodes <> [] ->
  Forall node_dict_ok nodes ->
  Forall edge_dict_ok pre ->
  e !! "from" = None \/ e !! "to" = None ->
  create_mermaid_chart true build nodes (pre ++ e :: post)
  = inl (KeyError (match e !! "from" with Some _ => "to" | None => "from" end)).
Proof.
  intros Hne Hnodes Hpre He. unfold create_mermaid_chart. simpl.
  destruct nodes as [|n0 rest] eqn:Hn; [done|]. rewrite <- Hn in *. clear Hn.
  destruct (explicit_nodes_total nodes empty_graph Hnodes) as [G0 HG0].
  destruct (input_edges_total pre G0 Hpre) as [G1 HG1].
  unfold assemble_graph. rewrite HG0. cbn [bind].
  rewrite (for_each_raises _ pre post e G0 G1
             (KeyError (match e !! "from" with Some _ => "to" | None => "from" end))); [done..|].
  unfold add_input_edge, ensure_node, dict_get.
  destruct (e !! "from") as [u|]; simpl; [|done].
  destruct He as [?|Hto]; [done|]. rewrite Hto.
  by destruct (has_node G1 u).
Qed.

(** An edge without [to] after a complete node. *)
Lemma missing_edge_key_raises_witness :
  create_mermaid_chart true (fun _ => inr "graph TD")
    [ {[ "id" := "A"; "label" := "A" ]} ] ([] ++ {[ "from" := "A" ]} :: [])
  = inl (KeyError (match ({[ "from" := "A" ]} : gmap string string) !! "from" with
                   | Some _ => "to"
                   | None => "from"
                   end)).
Proof.
  apply (missing_edge_key_raises (fun _ => inr "graph TD")
           [ {[ "id" := "A"; "label" := "A" ]} ] [] [] {[ "from" := "A" ]}).
  - discriminate.
  - repeat constructor; by eexists.
  - constructor.
  - right. reflexivity.
Defined.

Lemma ensure_node_other (G : DiGraph) (x y : string) :
  y <> x ->
  g_node (if has_node G x then G else add_node G x x) !! y = g_node G !! y.
Proof.
  intros Hne. destruct (has_node G x); [done|].
  unfold add_node; simpl. by rewrite lookup_insert_ne.
Qed.

(** After the node loop every attribute dict holds exactly a label, and an
    id declared several times carries the label of its last declaration. *)
Lemma explicit_labels (nodes : list (gmap string string)) (G0 : DiGraph) :
  for_each add_explicit_node nodes empty_graph = inr G0 ->
  (forall x a, g_node G0 !! x = Some a -> exists l, a = {[ "label" := l ]}) /\
  (forall pre n post i l,
     nodes = pre ++ n :: post -> n !! "id" = Some i -> n !! "label" = Some l ->
     i ∉ explicit_ids post ->
     g_node G0 !! i = Some {[ "label" := l ]}).
Proof.
  intros HG.
  apply (for_each_ind
           (fun seen G =>
              (forall x a, g_node G !! x = Some a -> exists l, a = {[ "label" := l ]}) /\
              (forall pre n post i l,
                 seen = pre ++ n :: post -> n !! "id" = Some i ->
                 n !! "label" = Some l -> i ∉ explicit_ids post ->
                 g_node G !! i = Some {[ "label" := l ]}))
           add_explicit_node) with (pre := []) in HG; [done|..].
  - clear. intros seen m G G' [Hsing Hlast]. unfold add_explicit_node.
    destruct (dict_get m "id") as [?|j] eqn:Hj; simpl; [done|].
    destruct (dict_get m "label") as [?|k] eqn:Hk; simpl; [done|].
    intros [= <-]. apply dict_get_inr in Hj. apply dict_get_inr in Hk.
    assert (g_node (add_node G j k) !! j = Some {[ "label" := k ]}) as Hnew.
    { unfold add_node; simpl. rewrite lookup_insert_eq. f_equal.
      destruct (g_node G !! j) as [a|] eqn:Ha; simpl.
      - destruct (Hsing j a Ha) as [l' ->]. apply insert_singleton_eq.
      - apply insert_empty. }
    split.
    + intros x a. destruct (decide (x = j)) as [->|Hne].
      * rewrite Hnew. intros [= <-]. by eexists.
      * unfold add_node; simpl. rewrite lookup_insert_ne by done. apply Hsing.
    + intros pre n post i l Hsplit Hi Hl Hpost.
      destruct post as [|p post _] using rev_ind.
      * apply app_inj_tail in Hsplit as [_ <-].
        assert (i = j) as -> by congruence. assert (l = k) as -> by congruence.
        done.
      * rewrite app_comm_cons, app_assoc in Hsplit.
        apply app_inj_tail in Hsplit as [-> <-].
        rewrite (explicit_ids_snoc _ _ _ Hj), elem_of_app in Hpost.
        assert (i <> j) as Hne.
        { intros ->. apply Hpost. right. by apply list_elem_of_singleton. }
        unfold add_node; simpl. rewrite lookup_insert_ne by done.
        eapply Hlast; eauto.
  - split; [intros x a; simpl; by rewrite lookup_empty|].
    intros pre n post i l Hnil. by destruct pre.
Qed.

(** The edge loop never touches a node that already exists. *)
Lemma input_edges_keep_nodes (edges : list (gmap string string)) (G0 G : DiGraph) :
  for_each add_input_edge edges G0 = inr G ->
  forall x, is_Some (g_node G0 !! x) -> g_node G !! x = g_node G0 !! x.
Proof.
  intros HG.
  refine (for_each_ind
            (fun _ G => forall x, is_Some (g_node G0 !! x) ->
                                  g_node G !! x = g_node G0 !! x)
            add_input_edge _ edges [] G0 G _ HG); [|done].
  clear. intros _ e G G3 Hkeep. unfold add_input_edge.
  destruct (ensure_node G e "from") as [?|G1] eqn:H1; simpl; [done|].
  destruct (ensure_node G1 e "to") as [?|G2] eqn:H2; simpl; [done|].
  apply ensure_node_spec in H1 as (u & Hu & ->).
  apply ensure_node_spec in H2 as (v & Hv & ->).
  unfold dict_get. rewrite Hu, Hv. simpl.
  destruct (ensure_node_facts G u) as (_ & Hu1 & Hk1 & _).
  set (G1 := if has_node G u then G else add_node G u u) in *.
  destruct (ensure_node_facts G1 v) as (_ & Hv2 & Hk2 & _).
  set (G2 := if has_node G1 v then G1 else add_node G1 v v) in *.
  rewrite add_edge_present; [|by rewrite Hk2|done].
  intros [= <-] x Hx. simpl.
  assert (is_Some (g_node G !! x)) as HGx by (by rewrite Hkeep).
  rewrite Hk2, Hk1; [by apply Hkeep|done|by rewrite Hk1].
Qed.

(** An explicit node keeps its declared label: in the assembled graph the
    attribute dict of a declared id holds the label of the last node dict
    that declares it, and no edge changes it, also when the id is an edge
    endpoint. *)
Theorem explicit_label_is_kept (pre post edges : list (gmap string string))
  (n : gmap string string) (i l : string) (G : DiGraph) :
  n !! "id" = Some i ->
  n !! "label" = Some l ->
  i ∉ explicit_ids post ->
  assemble_graph (pre ++ n :: post) edges = inr G ->
  g_node G !! i = Some {[ "label" := l ]}.
Proof.
  intros Hi Hl Hpost HG. unfold assemble_graph in HG.
  destruct (for_each add_explicit_node (pre ++ n :: post) empty_graph)
    as [?|G0] eqn:H0; simpl in HG; [done|].
  destruct (explicit_labels _ _ H0) as [_ Hlast].
  specialize (Hlast pre n post i l eq_refl Hi Hl Hpost).
  rewrite (input_edges_keep_nodes _ _ _ HG); [done|]. by rewrite Hlast.
Qed.

(** Node [A] declared twice, then used as the endpoint of an edge. *)
Lemma explicit_label_is_kept_witness :
  let first : gmap string string := {[ "id" := "A"; "label" := "old" ]} in
  let last : gmap string string := {[ "id" := "A"; "label" := "new" ]} in
  let edge : gmap string string := {[ "from" := "A"; "to" := "B" ]} in
  let G := mkDiGraph {[ "A" := {[ "label" := "new" ]}; "B" := {[ "label" := "B" ]} ]}
                     {[ ("A", "B") ]} in
  assemble_graph ([first] ++ last :: []) [edge] = inr G /\
  g_node G !! "A" = Some {[ "label" := "new" ]}.
Proof.
  intros first last edge G.
  assert (assemble_graph ([first] ++ last :: []) [edge] = inr G) as HG
    by (vm_compute; reflexivity).
  split; [exact HG|].
  apply (explicit_label_is_kept [first] [] [edge] last "A" "new" G).
  - reflexivity.
  - reflexivity.
  - by intros ?%elem_of_nil.
  - exact HG.
Defined.

(** The nodes of the assembled graph are the declared ids and the edge
    endpoints, and nothing else. *)
Theorem graph_nodes_are_ids_and_endpoints (nodes edges : list (gmap string string))
  (G : DiGraph) :
  assemble_graph nodes edges = inr G ->
  forall x, is_Some (g_node G !! x) <->
            x ∈ explicit_ids nodes \/ exists e, e ∈ edges /\ is_endpoint x e.
Proof.
  intros HG. unfold assemble_graph in HG.
  destruct (for_each add_explicit_node nodes empty_graph) as [?|G0] eqn:H0;
    simpl in HG; [done|].
  apply explicit_nodes_spec in H0 as [Hadj Hdom].
  destruct (input_edges_spec _ _ _ _ Hadj Hdom HG) as (Hids & _ & Hends & _).
  intros x. split.
  - revert x.
    refine (for_each_ind
              (fun seen G => forall x, is_Some (g_node G !! x) ->
                 x ∈ explicit_ids nodes \/ exists e, e ∈ seen /\ is_endpoint x e)
              add_input_edge _ edges [] G0 G _ HG).
    + clear. intros seen e G G3 Hinv. unfold add_input_edge.
      destruct (ensure_node G e "from") as [?|G1] eqn:H1; simpl; [done|].
      destruct (ensure_node G1 e "to") as [?|G2] eqn:H2; simpl; [done|].
      apply ensure_node_spec in H1 as (u & Hu & ->).
      apply ensure_node_spec in H2 as (v & Hv & ->).
      unfold dict_get. rewrite Hu, Hv. simpl.
      destruct (ensure_node_facts G u) as (_ & Hu1 & Hk1 & _).
      set (G1 := if has_node G u then G else add_node G u u) in *.
      destruct (ensure_node_facts G1 v) as (_ & Hv2 & Hk2 & _).
      rewrite add_edge_present; [|by rewrite Hk2|done].
      intros [= <-] x Hx. simpl in Hx.
      destruct (decide (x = v)) as [->|Hxv].
      { right. exists e. split; [|by right].
        apply elem_of_app. right. by apply list_elem_of_singleton. }
      destruct (decide (x = u)) as [->|Hxu].
      { right. exists e. split; [|by left].
        apply elem_of_app. right. by apply list_elem_of_singleton. }
      rewrite ensure_node_other in Hx by done. subst G1.
      rewrite ensure_node_other in Hx by done.
      destruct (Hinv x Hx) as [?|(e' & He' & Hend)]; [by left|].
      right. exists e'. split; [|done]. apply elem_of_app. by left.
    + intros x Hx. left. by apply Hdom.
  - intros [Hx|(e & He & Hend)]; [by apply Hids|by eapply Hends].
Qed.

(** The undeclared endpoint [B] of the one-node, one-edge input. *)
Lemma graph_nodes_are_ids_and_endpoints_witness :
  let nodes : list (gmap string string) := [ {[ "id" := "A"; "label" := "A" ]} ] in
  let edges : list (gmap string string) := [ {[ "from" := "A"; "to" := "B" ]} ] in
  let G := mkDiGraph {[ "A" := {[ "label" := "A" ]}; "B" := {[ "label" := "B" ]} ]}
                     {[ ("A", "B") ]} in
  is_Some (g_node G !! "B") <->
  "B" ∈ explicit_ids nodes \/ exists e, e ∈ edges /\ is_endpoint "B" e.
Proof.
  intros nodes edges G.
  apply (graph_nodes_are_ids_and_endpoints nodes edges G).
  vm_compute. reflexivity.
Defined.


(** ** The Jac analyser *)

Lemma split_first (sep : N) (s : pystr) :
  exists p ps rest,
    split sep s = p :: ps /\ s = p ++ rest /\ (sep ∉ p) /\
    (rest = [] \/ exists rest', rest = sep :: rest').
Proof.
  induction s as [|c s (p & ps & rest & Hsplit & Hs & Hp & Hrest)]; simpl.
  - exists [], [], []. repeat split; [by intros ?%elem_of_nil|by left].
  - destruct (N.eqb_spec c sep) as [->|Hne].
    + exists [], (split sep s), (sep :: s).
      repeat split; [by intros ?%elem_of_nil|right; by eexists].
    + rewrite Hsplit. exists (c :: p), ps, rest.
      split; [done|]. split; [by rewrite Hs|]. split; [|done].
      intros [?|?]%elem_of_cons; [congruence|done].
Qed.

Lemma doc_value_cases (a : JacNode) :
  doc_value a = match jn_doc a with
                | inr d => inr (default [] d)
                | inl e => inl e
                end.
Proof. unfold doc_value. by destruct (jn_doc a). Qed.

Lemma jac_item_raises (results : JacResults) (item : JacItem) :
  item_ok item = false -> exists e, jac_item results item = inl e.
Proof.
  destruct item as [a|a|]; simpl; [| |done]; unfold reads_ok; intros Hok.
  - rewrite doc_value_cases.
    destruct (jn_name a); simpl; [by eexists|].
    destruct (jn_doc a); simpl; [by eexists|].
    destruct (jn_to_jac_str a); simpl; [by eexists|].
    destruct (jn_first_line a); simpl; [by eexists|].
    destruct (jn_last_line a); simpl; [by eexists|done].
  - rewrite doc_value_cases.
    destruct (jn_name a); simpl; [by eexists|].
    destruct (jn_to_jac_str a) as [?|text]; simpl;
      [destruct (jn_doc a); by eexists|].
    destruct (split_first brace text) as (hd & tl & rest & -> & _). simpl.
    destruct (jn_doc a); simpl; [by eexists|].
    destruct (jn_first_line a); simpl; [by eexists|].
    destruct (jn_last_line a); simpl; [by eexists|done].
Qed.

Lemma jac_loop_raises (body : list JacItem) (item : JacItem) :
  item ∈ body -> item_ok item = false ->
  forall results, exists e, for_each jac_item body results = inl e.
Proof.
  intros Hin Hbad. induction body as [|it body IH]; intros results.
  - by apply elem_of_nil in Hin.
  - simpl. destruct (jac_item results it) as [e|r1] eqn:Hit; simpl; [by eexists|].
    apply elem_of_cons in Hin as [->|Hin]; [|by apply IH].
    destruct (jac_item_raises results it Hbad) as [e He]. congruence.
Qed.

(** All or nothing: when the parser raises, or when any read of any
    top-level item raises, the result is the empty one, also if items
    before the failing one had been recorded. *)
Theorem jac_failure_discards_everything
  (parse : string -> result (option (list JacItem))) (file_content : string) :
  (exists e, parse file_content = inl e) \/
  (exists body item, parse file_content = inr (Some body) /\
                     item ∈ body /\ item_ok item = false) ->
  analyze_jac_code parse file_content = empty_jac_results.
Proof.
  unfold analyze_jac_code.
  intros [[e ->]|(body & item & -> & Hin & Hbad)]; simpl; [done|].
  by destruct (jac_loop_raises body item Hin Hbad empty_jac_results) as [e ->].
Qed.

(** A walker that is read in full, followed by an ability whose last line
    cannot be read. *)
Lemma jac_failure_discards_everything_witness :
  analyze_jac_code jac_parse_broken "walker w {} can g" = empty_jac_results.
Proof.
  apply (jac_failure_discards_everything jac_parse_broken "walker w {} can g").
  right. exists [Architype jac_walker; Ability jac_broken], (Ability jac_broken).
  split; [reflexivity|]. split; [|reflexivity].
  apply elem_of_cons. right. apply elem_of_cons. by left.
Defined.

(** The Jac analyser never reports a call or an import, whatever the
    parser yields. *)
Theorem jac_reports_no_calls_or_imports
  (parse : string -> result (option (list JacItem))) (file_content : string) :
  jac_calls (analyze_jac_code parse file_content) = [] /\
  jac_imports (analyze_jac_code parse file_content) = [].
Proof.
  unfold analyze_jac_code.
  destruct (parse file_content) as [e|[body|]]; simpl; [done| |done].
  destruct (for_each jac_item body empty_jac_results) as [e|r] eqn:Hloop; [done|].
  refine (for_each_ind (fun _ r => jac_calls r = [] /\ jac_imports r = [])
            jac_item _ body [] empty_jac_results r _ Hloop); [|done].
  clear. intros _ item r1 r2 [Hc Hi] Hstep.
  destruct item as [a|a|]; simpl in Hstep.
  - destruct (jn_name a); [done|]. destruct (doc_value a); [done|].
    destruct (jn_to_jac_str a); [done|]. destruct (jn_first_line a); [done|].
    destruct (jn_last_line a); [done|]. simpl in Hstep. by injection Hstep as <-.
  - destruct (jn_name a); [done|].
    destruct (jn_to_jac_str a) as [?|text]; [done|]. simpl in Hstep.
    destruct (first_item (split brace text)); [done|]. simpl in Hstep.
    destruct (doc_value a); [done|]. simpl in Hstep.
    destruct (jn_first_line a); [done|].
    destruct (jn_last_line a); [done|]. simpl in Hstep. by injection Hstep as <-.
  - by injection Hstep as <-.
Qed.


(** ** Where the documentation is saved *)

Lemma endswith_sep_app (a b : string) :
  b <> "" -> endswith_sep (a ++ b) = endswith_sep b.
Proof.
  intros Hb. induction a as [|c a IH]; simpl; [done|].
  rewrite IH. destruct (a ++ b)%string eqn:Hab; [|done].
  destruct a; simpl in Hab; [done|discriminate].
Qed.

Lemma path_join_outputs (repo_name : string) :
  startswith_sep repo_name = false ->
  path_join "./outputs" repo_name = ("./outputs/" ++ repo_name)%string.
Proof. intros Hrel. unfold path_join. by rewrite Hrel. Qed.

(** A relative repository name keeps the file under [./outputs/]: the
    directory created is [./outputs/<name>] and the path written and
    returned is that directory followed by [docs.md], with a separator in
    between unless the name is empty or already ends with one. *)
Theorem relative_name_is_saved_under_outputs {World : Type}
  (makedirs : World -> string -> result World)
  (write_file : World -> string -> string -> result World)
  (w w2 : World) (repo_name content save_path : string) :
  startswith_sep repo_name = false ->
  save_markdown makedirs write_file w repo_name content = inr (w2, save_path) ->
  save_path
  = ("./outputs/" ++ repo_name ++
     (if bool_decide (repo_name = "") || endswith_sep repo_name
      then "docs.md" else "/docs.md"))%string /\
  exists w1,
    makedirs w ("./outputs/" ++ repo_name)%string = inr w1 /\
    write_file w1 save_path content = inr w2.
Proof.
  intros Hrel. unfold save_markdown. rewrite path_join_outputs by done.
  destruct (makedirs w _) as [?|w1] eqn:Hmk; simpl; [done|].
  destruct (write_file w1 _ content) as [?|w2'] eqn:Hwr; simpl; [done|].
  intros [= <- <-].
  assert (path_join ("./outputs/" ++ repo_name) "docs.md"
          = ("./outputs/" ++ repo_name ++
             (if bool_decide (repo_name = "") || endswith_sep repo_name
              then "docs.md" else "/docs.md"))%string) as Hpath.
  { unfold path_join. cbn [startswith_sep Ascii.eqb]. simpl Ascii.eqb.
    destruct (decide (repo_name = "")) as [->|Hne]; [done|].
    rewrite (bool_decide_eq_false_2 (repo_name = "")) by done.
    rewrite (bool_decide_eq_false_2 ((_ ++ _)%string = "")) by done.
    rewrite (endswith_sep_app "./outputs/" repo_name) by done. simpl.
    by destruct (endswith_sep repo_name). }
  split; [done|]. by exists w1.
Qed.

(** The repository [demo] in a world that records the files written. *)
Lemma relative_name_is_saved_under_outputs_witness :
  let save_path := "./outputs/demo/docs.md" in
  save_path
  = ("./outputs/" ++ "demo" ++
     (if bool_decide ("demo" = "") || endswith_sep "demo"
      then "docs.md" else "/docs.md"))%string /\
  exists w1,
    memory_makedirs ∅ ("./outputs/" ++ "demo")%string = inr w1 /\
    memory_write w1 save_path "# Docs" = inr {[ save_path := "# Docs" ]}.
Proof.
  intros save_path.
  apply (relative_name_is_saved_under_outputs memory_makedirs memory_write
           ∅ {[ save_path := "# Docs" ]} "demo" "# Docs" save_path).
  - reflexivity.
  - reflexivity.
Defined.

(** A repository name that starts with the separator takes the file out of
    [./outputs]: [os.path.join] drops the first component, so the directory
    created is the name itself and the path written and returned is the
    name followed by [docs.md]. *)
Theorem absolute_name_leaves_outputs {World : Type}
  (makedirs : World -> string -> result World)
  (write_file : World -> string -> string -> result World)
  (w w2 : World) (repo_name content save_path : string) :
  startswith_sep repo_name = true ->
  save_markdown makedirs write_file w repo_name content = inr (w2, save_path) ->
  save_path
  = (repo_name ++ (if endswith_sep repo_name then "docs.md" else "/docs.md"))%string /\
  startswith_sep save_path = true /\
  exists w1,
    makedirs w repo_name = inr w1 /\
    write_file w1 save_path content = inr w2.
Proof.
  intros Habs. unfold save_markdown.
  assert (path_join "./outputs" repo_name = repo_name) as ->
    by (unfold path_join; by rewrite Habs).
  destruct (makedirs w repo_name) as [?|w1] eqn:Hmk; simpl; [done|].
  destruct (write_file w1 _ content) as [?|w2'] eqn:Hwr; simpl; [done|].
  intros [= <- <-].
  assert (repo_name <> "") as Hne by (by intros ->).
  assert (path_join repo_name "docs.md"
          = (repo_name ++ (if endswith_sep repo_name
                           then "docs.md" else "/docs.md"))%string) as Hpath.
  { unfold path_join. simpl startswith_sep.
    rewrite (bool_decide_eq_false_2 (repo_name = "")) by done. simpl.
    by destruct (endswith_sep repo_name). }
  split; [done|]. split; [|by exists w1].
  rewrite Hpath. destruct repo_name; [done|]. done.
Qed.

(** The name [/tmp/x]. *)
Lemma absolute_name_leaves_outputs_witness :
  let save_path := "/tmp/x/docs.md" in
  save_path
  = ("/tmp/x" ++ (if endswith_sep "/tmp/x" then "docs.md" else "/docs.md"))%string /\
  startswith_sep save_path = true /\
  exists w1,
    memory_makedirs ∅ "/tmp/x" = inr w1 /\
    memory_write w1 save_path "# Docs" = inr {[ save_path := "# Docs" ]}.
Proof.
  intros save_path.
  apply (absolute_name_leaves_outputs memory_makedirs memory_write
           ∅ {[ save_path := "# Docs" ]} "/tmp/x" "# Docs" save_path).
  - reflexivity.
  - reflexivity.
Defined.
